(** * MetalLB UPnP IGD support: protocol client and speaker controller

    A shallow embedding of
      - internal/upnp/client.go      (the IGD protocol client), and
      - speaker/upnp_controller.go   (election and mapping lifecycle),
    together with the properties of the design document that can be
    stated over them.

    Go values are modelled as follows.
      - [int], [int32], [uint16], [uint32] are [Z]; the conversions
        [uint16(x)] and [uint32(x)] are written out as reductions modulo
        2^16 and 2^32.
      - [string] is [string] (a sequence of bytes); comparison is bytewise.
      - [error] is [option GoError], [None] being [nil].
      - Go maps are [gmap]s; a [nil] map reads like the empty map.
      - Every effect of the code that is visible outside the process (a
        SOAP action sent to the device together with the device's answer,
        a Kubernetes event, a status-change callback) is appended to a
        log, the [World]; the device's answer may depend on everything
        that happened before.  Log lines written through go-kit are not
        modelled. *)

From Stdlib Require Import ZArith List Ascii String Lia Bool.
From stdpp Require Import base option list gmap strings pretty sorting.

Local Open Scope Z_scope.

#[local] Set Warnings "-clear-no-such-hyp".

(** ** Strings *)

Module strings.

Definition isLower (a : ascii) : bool :=
  let n := N_of_ascii a in ((97 <=? n) && (n <=? 122))%N.

Definition isUpper (a : ascii) : bool :=
  let n := N_of_ascii a in ((65 <=? n) && (n <=? 90))%N.

Definition upperByte (a : ascii) : ascii :=
  if isLower a then ascii_of_N (N_of_ascii a - 32) else a.

Definition lowerByte (a : ascii) : ascii :=
  if isUpper a then ascii_of_N (N_of_ascii a + 32) else a.

(** [strings.ToUpper] and [strings.ToLower] on the ASCII range.  Go maps
    runes, not bytes; bytes outside ASCII are kept here.  The code only
    compares the results with "TCP", "UDP", "tcp", "udp" and "true", and
    no rune outside ASCII is mapped to one of their letters. *)
Fixpoint ToUpper (s : string) : string :=
  match s with
  | EmptyString => EmptyString
  | String a s' => String (upperByte a) (ToUpper s')
  end.

Fixpoint ToLower (s : string) : string :=
  match s with
  | EmptyString => EmptyString
  | String a s' => String (lowerByte a) (ToLower s')
  end.

(** [strings.Contains s substr]. *)
Fixpoint Contains (s substr : string) : bool :=
  String.prefix substr s ||
  match s with
  | EmptyString => false
  | String _ s' => Contains s' substr
  end.

(** [strings.Split s "/"]. *)
Fixpoint SplitSlash (s : string) : list string :=
  match s with
  | EmptyString => [EmptyString]
  | String c s' =>
      if Ascii.eqb c "/" then EmptyString :: SplitSlash s'
      else match SplitSlash s' with
           | h :: t => String c h :: t
           | [] => [String c EmptyString]
           end
  end.

(** Equality of two strings up to the case of ASCII letters, stated
    letter by letter and without reference to [ToUpper] or [ToLower]:
    this is what "case-insensitive" means in the design document. *)
Definition sameLetter (a b : ascii) : bool :=
  let n := N_of_ascii a in
  let m := N_of_ascii b in
  (Ascii.eqb a b
   || (isUpper a && (n + 32 =? m)%N)
   || (isLower a && (n =? m + 32)%N)).

Fixpoint EqualFold (s t : string) : bool :=
  match s, t with
  | EmptyString, EmptyString => true
  | String a s', String b t' => sameLetter a b && EqualFold s' t'
  | _, _ => false
  end.

End strings.

(** [strconv.Atoi]: an optional sign, then at least one decimal digit; the
    value has to fit Go's 64-bit [int]. *)
Module strconv.

Definition digit (a : ascii) : option Z :=
  let n := N_of_ascii a in
  if ((48 <=? n) && (n <=? 57))%N then Some (Z.of_N n - 48) else None.

Fixpoint digits (s : string) (acc : Z) : option Z :=
  match s with
  | EmptyString => Some acc
  | String a s' =>
      match digit a with
      | Some d => digits s' (10 * acc + d)
      | None => None
      end
  end.

Definition unsigned (sign : Z) (s : string) : option Z :=
  match s with
  | EmptyString => None
  | _ =>
      match digits s 0 with
      | Some n =>
          let v := sign * n in
          if (- 2 ^ 63 <=? v) && (v <=? 2 ^ 63 - 1) then Some v else None
      | None => None
      end
  end.

Definition Atoi (s : string) : option Z :=
  match s with
  | EmptyString => None
  | String a s' =>
      if Ascii.eqb a "+" then unsigned 1 s'
      else if Ascii.eqb a "-" then unsigned (-1) s'
      else unsigned 1 s
  end.

Definition doubleQuote : ascii := "034"%char.
Definition backslash : ascii := "092"%char.

Definition hexDigit (n : N) : ascii :=
  ascii_of_N (if (n <? 10)%N then 48 + n else 87 + n).

(** One byte of a string under [strconv.Quote] (the verb [%q]): the quote
    and the backslash are escaped, control characters are written as
    [\a], [\b], [\f], [\n], [\r], [\t], [\v] or [\xhh], printable
    ASCII is kept.  Go decodes runes; bytes outside ASCII are kept here
    (Go keeps the printable runes and escapes the others). *)
Definition quoteByte (a : ascii) : string :=
  let n := N_of_ascii a in
  let escaped (c : ascii) := String backslash (String c EmptyString) in
  if (n =? 34)%N then escaped doubleQuote
  else if (n =? 92)%N then escaped backslash
  else if (n =? 7)%N then escaped "a"%char
  else if (n =? 8)%N then escaped "b"%char
  else if (n =? 12)%N then escaped "f"%char
  else if (n =? 10)%N then escaped "n"%char
  else if (n =? 13)%N then escaped "r"%char
  else if (n =? 9)%N then escaped "t"%char
  else if (n =? 11)%N then escaped "v"%char
  else if ((n <? 32) || (n =? 127))%N
       then String backslash
              (String "x" (String (hexDigit (n / 16))
                                  (String (hexDigit (n mod 16)) EmptyString)))
  else String a EmptyString.

Fixpoint quoteBytes (s : string) : string :=
  match s with
  | EmptyString => String doubleQuote EmptyString
  | String a s' => String.append (quoteByte a) (quoteBytes s')
  end.

Definition Quote (s : string) : string := String doubleQuote (quoteBytes s).

End strconv.

(** [cache.SplitMetaNamespaceKey] of client-go: a key is "name" or
    "namespace/name"; anything with more than one slash is an error, whose
    text quotes the key ([fmt.Errorf("unexpected key format: %q", key)],
    written out where DeleteBalancer returns it). *)
Definition SplitMetaNamespaceKey (key : string) : option (string * string) :=
  match strings.SplitSlash key with
  | [name] => Some (EmptyString, name)
  | [namespace; name] => Some (namespace, name)
  | _ => None
  end.

(** ** Errors *)

(** What [err.Error()] is computed from.  A fault reported by the device
    carries the UPnP error code of the SOAP fault (a number) next to its
    text; every other failure (transport, the client's own) has a text
    only.  The code under verification reads the text. *)
Inductive GoError : Type :=
| SOAPFault (errorCode : Z) (text : string)
| PlainError (text : string).

Definition Error (e : GoError) : string :=
  match e with
  | SOAPFault _ text => text
  | PlainError text => text
  end.

(** The structured code of a device fault, when there is one. *)
Definition faultCode (e : GoError) : option Z :=
  match e with
  | SOAPFault code _ => Some code
  | PlainError _ => None
  end.

(** UPnP IGD WANIPConnection error codes. *)
Definition SpecifiedArrayIndexInvalid : Z := 713.
Definition NoSuchEntryInArray : Z := 714.

(** [fmt.Errorf(prefix ++ "%v", err)]. *)
Definition wrapError (prefix : string) (e : GoError) : GoError :=
  PlainError (prefix +:+ Error e).

(** ** The device and the log of effects *)

(** [net.IP], kept in its textual form ([String()] is then the identity). *)
Definition IP : Type := string.

Definition uint16 (x : Z) : Z := x mod 2 ^ 16.
Definition uint32 (x : Z) : Z := x mod 2 ^ 32.

(** Arguments of the AddPortMapping SOAP action. *)
Record AddPortMappingArgs : Type := {
  NewRemoteHost : string;
  NewExternalPort : Z;
  NewProtocol : string;
  NewInternalPort : Z;
  NewInternalClient : string;
  NewEnabled : bool;
  NewPortMappingDescription : string;
  NewLeaseDuration : Z
}.

(** The answer to GetGenericPortMappingEntry. *)
Record GenericPortMappingEntry : Type := {
  EntryRemoteHost : string;
  EntryExternalPort : Z;
  EntryProtocol : string;
  EntryInternalPort : Z;
  EntryInternalClient : string;
  EntryEnabled : bool;
  EntryDescription : string;
  EntryLeaseDuration : Z
}.

Inductive Event : Type :=
| EvGetExternalIPAddress (answer : GoError + string)
| EvAddPortMapping (args : AddPortMappingArgs) (answer : option GoError)
| EvDeletePortMapping (remoteHost : string) (externalPort : Z)
    (protocol : string) (answer : option GoError)
| EvGetGenericPortMappingEntry (index : Z)
    (answer : GoError + GenericPortMappingEntry)
| EvServiceEvent (warning : bool) (reason : string)
| EvStatusChange (namespace name : string).

Definition World : Type := list Event.

(** A discovered WANIPConnection service ([internetgateway1] and
    [internetgateway2] give it the same shape).  Its answers are a function
    of the action and of everything logged so far. *)
Record WANIPConnection1 : Type := {
  Location : string;
  GetExternalIPAddress : World → GoError + string;
  DeviceAddPortMapping : World → AddPortMappingArgs → option GoError;
  DeviceDeletePortMapping : World → string → Z → string → option GoError;
  GetGenericPortMappingEntry :
    World → Z → GoError + GenericPortMappingEntry
}.

(** Effectful code: a function of the log that returns a result and the
    extended log. *)
Definition M (A : Type) : Type := World → A * World.

Definition ret {A} (x : A) : M A := fun w => (x, w).

Definition bind {A B} (m : M A) (f : A → M B) : M B :=
  fun w => let '(x, w') := m w in f x w'.

Notation "x <- m ;; k" := (bind m (fun x => k))
  (at level 100, m at next level, right associativity, only parsing).
Notation "m ;;; k" := (bind m (fun _ => k))
  (at level 100, right associativity, only parsing).

Definition emit (e : Event) : M unit := fun w => (tt, w ++ [e]).

(** One SOAP round trip: ask, log the action with its answer. *)
Definition callAdd (d : WANIPConnection1) (a : AddPortMappingArgs)
  : M (option GoError) :=
  fun w => let r := DeviceAddPortMapping d w a in
           (r, w ++ [EvAddPortMapping a r]).

Definition callDelete (d : WANIPConnection1) (host : string) (port : Z)
    (proto : string) : M (option GoError) :=
  fun w => let r := DeviceDeletePortMapping d w host port proto in
           (r, w ++ [EvDeletePortMapping host port proto r]).

Definition callGetEntry (d : WANIPConnection1) (index : Z)
  : M (GoError + GenericPortMappingEntry) :=
  fun w => let r := GetGenericPortMappingEntry d w index in
           (r, w ++ [EvGetGenericPortMappingEntry index r]).

Definition callGetExternalIP (d : WANIPConnection1) : M (GoError + string) :=
  fun w => let r := GetExternalIPAddress d w in
           (r, w ++ [EvGetExternalIPAddress r]).

Fixpoint foldM {A S : Type} (f : S → A → M S) (s : S) (l : list A) : M S :=
  match l with
  | [] => ret s
  | x :: l' => s' <- f s x ;; foldM f s' l'
  end.

Fixpoint forM_ {A : Type} (l : list A) (f : A → M unit) : M unit :=
  match l with
  | [] => ret tt
  | x :: l' => f x ;;; forM_ l' f
  end.

(** ** internal/upnp/client.go *)

Record PortMapping : Type := {
  ExternalPort : Z;
  InternalPort : Z;
  InternalIP : IP;
  Protocol : string;
  Description : string;
  Duration : Z
}.

Record IGDClient : Type := {
  client1 : option WANIPConnection1;
  client2 : option WANIPConnection1;
  version : Z;
  externalIP : option IP
}.

(** What the two discovery calls of goupnp return: the clients that
    answered, in the order the library lists them, and its error. *)
Record Network : Type := {
  IGD2Clients : list WANIPConnection1 * option GoError;
  IGD1Clients : list WANIPConnection1 * option GoError
}.

(** The chain [if c.version == 2 && c.client2 != nil {..} else if
    c.version == 1 && c.client1 != nil {..} else {..}] that every operation
    of the client starts with: the connection the action goes to, if any. *)
Definition connection (c : IGDClient) : option WANIPConnection1 :=
  match (if version c =? 2 then client2 c else None) with
  | Some d => Some d
  | None => if version c =? 1 then client1 c else None
  end.

Definition discoverIGD2 (net : Network) (c : IGDClient)
  : IGDClient * option GoError :=
  let '(clients, err) := IGD2Clients net in
  match err with
  | Some e => (c, Some (wrapError "failed to discover IGD2 clients: " e))
  | None =>
      match clients with
      | [] => (c, Some (PlainError "no IGD2 devices found"))
      | first :: _ =>
          ({| client1 := client1 c; client2 := Some first; version := 2;
              externalIP := externalIP c |}, None)
      end
  end.

Definition discoverIGD1 (net : Network) (c : IGDClient)
  : IGDClient * option GoError :=
  let '(clients, err) := IGD1Clients net in
  match err with
  | Some e => (c, Some (wrapError "failed to discover IGD1 clients: " e))
  | None =>
      match clients with
      | [] => (c, Some (PlainError "no IGD1 devices found"))
      | first :: _ =>
          ({| client1 := Some first; client2 := client2 c; version := 1;
              externalIP := externalIP c |}, None)
      end
  end.

Section Client.

(** [net.ParseIP], from Go's library: [None] is its [nil]. *)
Variable ParseIP : string → option IP.

Definition updateExternalIP (c : IGDClient) : M (IGDClient * option GoError) :=
  match connection c with
  | None => ret (c, Some (PlainError "no IGD client available"))
  | Some d =>
      r <- callGetExternalIP d ;;
      match r with
      | inl e => ret (c, Some (wrapError "failed to get external IP: " e))
      | inr text =>
          let c' := {| client1 := client1 c; client2 := client2 c;
                       version := version c; externalIP := ParseIP text |} in
          match ParseIP text with
          | None =>
              ret (c', Some (PlainError ("invalid external IP address: " +:+ text)))
          | Some _ => ret (c', None)
          end
      end
  end.

Definition New (net : Network) : M (GoError + IGDClient) :=
  let client := {| client1 := None; client2 := None; version := 0;
                   externalIP := None |} in
  let discovered :=
    match discoverIGD2 net client with
    | (c2, None) => inr c2
    | (c2, Some _) =>
        match discoverIGD1 net c2 with
        | (c1, None) => inr c1
        | (_, Some e) =>
            inl (wrapError "failed to discover UPnP IGD device: " e)
        end
    end in
  match discovered with
  | inl e => ret (inl e)
  | inr c => r <- updateExternalIP c ;; ret (inr (fst r))
  end.

Definition GetExternalIP (c : IGDClient) : option IP := externalIP c.

Definition RefreshExternalIP (c : IGDClient) : M (IGDClient * option GoError) :=
  updateExternalIP c.

(** The body of the [for] loop of GetPortMappings.  The Go loop has no
    bound of its own and ends through [break] and [return]; here it runs
    on [fuel], and [None] means that the fuel ran out with the loop still
    going. *)
Fixpoint GetPortMappings_loop (fuel : nat) (c : IGDClient) (index : Z)
    (mappings : list PortMapping) : M (option (GoError + list PortMapping)) :=
  match fuel with
  | O => ret None
  | S fuel' =>
      match connection c with
      | None => ret (Some (inl (PlainError "no IGD client available")))
      | Some d =>
          r <- callGetEntry d (uint16 index) ;;
          match r with
          | inl err =>
              if strings.Contains (Error err) "SpecifiedArrayIndexInvalid"
                 || strings.Contains (Error err) "NoSuchEntryInArray"
              then ret (Some (inr mappings))
              else ret (Some (inl (wrapError
                     ("failed to get port mapping entry " +:+ pretty index +:+ ": ")
                     err)))
          | inr e =>
              let mappings' :=
                if EntryEnabled e then
                  match ParseIP (EntryInternalClient e) with
                  | Some ip =>
                      mappings ++
                      [{| ExternalPort := EntryExternalPort e;
                          InternalPort := EntryInternalPort e;
                          InternalIP := ip;
                          Protocol := EntryProtocol e;
                          Description := EntryDescription e;
                          Duration := EntryLeaseDuration e |}]
                  | None => mappings
                  end
                else mappings in
              let index' := index + 1 in
              if index' >? 1000 then ret (Some (inr mappings'))
              else GetPortMappings_loop fuel' c index' mappings'
          end
      end
  end.

Definition GetPortMappings (fuel : nat) (c : IGDClient)
  : M (option (GoError + list PortMapping)) :=
  GetPortMappings_loop fuel c 0 [].

End Client.

Definition AddPortMapping (c : IGDClient) (mapping : option PortMapping)
  : M (option GoError) :=
  match mapping with
  | None => ret (Some (PlainError "port mapping cannot be nil"))
  | Some m =>
      let protocol := strings.ToUpper (Protocol m) in
      if negb (String.eqb protocol "TCP") && negb (String.eqb protocol "UDP")
      then ret (Some (PlainError
             ("invalid protocol: " +:+ Protocol m +:+ " (must be TCP or UDP)")))
      else
        match connection c with
        | None => ret (Some (PlainError "no IGD client available"))
        | Some d =>
            err <- callAdd d
                     {| NewRemoteHost := EmptyString;
                        NewExternalPort := uint16 (ExternalPort m);
                        NewProtocol := protocol;
                        NewInternalPort := uint16 (InternalPort m);
                        NewInternalClient := InternalIP m;
                        NewEnabled := true;
                        NewPortMappingDescription := Description m;
                        NewLeaseDuration := uint32 (Duration m) |} ;;
            match err with
            | Some e => ret (Some (wrapError "failed to add port mapping: " e))
            | None => ret None
            end
        end
  end.

Definition DeletePortMapping (c : IGDClient) (externalPort : Z)
    (protocol : string) : M (option GoError) :=
  let protocol := strings.ToUpper protocol in
  if negb (String.eqb protocol "TCP") && negb (String.eqb protocol "UDP")
  then ret (Some (PlainError
         ("invalid protocol: " +:+ protocol +:+ " (must be TCP or UDP)")))
  else
    match connection c with
    | None => ret (Some (PlainError "no IGD client available"))
    | Some d =>
        err <- callDelete d EmptyString (uint16 externalPort) protocol ;;
        match err with
        | Some e =>
            if strings.Contains (Error e) "NoSuchEntryInArray"
               || strings.Contains (Error e) "SpecifiedArrayIndexInvalid"
            then ret None
            else ret (Some (wrapError "failed to delete port mapping: " e))
        | None => ret None
        end
    end.

Definition IsAvailable (c : IGDClient) : bool :=
  ((version c =? 1) && bool_decide (is_Some (client1 c)))
  || ((version c =? 2) && bool_decide (is_Some (client2 c))).

(** ** speaker/upnp_controller.go *)

Definition UPnPEnabledAnnotation : string := "metallb.universe.tf/upnp-enabled".
Definition UPnPDescriptionAnnotation : string := "metallb.universe.tf/upnp-description".
Definition UPnPDurationAnnotation : string := "metallb.universe.tf/upnp-duration".
Definition DefaultUPnPDescription : string := "MetalLB LoadBalancer".
Definition DefaultUPnPDuration : Z := 0.

(** The parts of [v1.Service], [v1.ServicePort] and [v1.Node] the
    controller reads. *)
Record ServicePort : Type := {
  PortProtocol : string;
  Port : Z
}.

Record Service : Type := {
  Namespace : string;
  Name : string;
  Annotations : gmap string string;
  Ports : list ServicePort
}.

Record NodeCondition : Type := {
  ConditionType : string;
  ConditionStatus : string
}.

Record Node : Type := {
  Labels : gmap string string;
  Conditions : list NodeCondition
}.

(** Modelled from the spec: [config.Pool] and the advertisement type behind
    [pool.UPnPAdvertisements] are declared in internal/config, which is not
    among the sources.  The design document gives an advertisement as
    [{ enabled: bool, allowedNodes: set of node name }]; the controller
    reads it through [adv.Enabled], the membership test [adv.Nodes[name]]
    and [range adv.Nodes]. *)
Record UPnPAdvertisement : Type := {
  Enabled : bool;
  Nodes : gset string
}.

Record Pool : Type := {
  PoolName : string;
  UPnPAdvertisements : list UPnPAdvertisement
}.

(** The controller.  Its [config] field is written by SetConfig and never
    read; the mutex serialises the calls, which are modelled one at a
    time; the [onStatusChange] callback is the event [EvStatusChange]. *)
Record upnpController : Type := {
  myNode : string;
  client : IGDClient;
  mappings : gmap string (list PortMapping)
}.

Definition setMappings (c : upnpController)
    (m : gmap string (list PortMapping)) : upnpController :=
  {| myNode := myNode c; client := client c; mappings := m |}.

Definition isUPnPEnabled (svc : Service) : bool :=
  match Annotations svc !! UPnPEnabledAnnotation with
  | None => false
  | Some enabled => String.eqb (strings.ToLower enabled) "true"
  end.

Definition poolSupportsUPnP (pool : Pool) : bool :=
  (0 <? length (UPnPAdvertisements pool))%nat.

Definition nodeMatchesUPnPAdvertisements (c : upnpController) (pool : Pool)
  : bool :=
  existsb (λ adv, Enabled adv && bool_decide (myNode c ∈ Nodes adv))
          (UPnPAdvertisements pool).

Definition isNodeReady (node : Node) : bool :=
  match List.find (λ cond, String.eqb (ConditionType cond) "Ready")
                  (Conditions node) with
  | Some cond => String.eqb (ConditionStatus cond) "True"
  | None => false
  end.

Definition isNodeExcludedFromBalancers (node : Node) : bool :=
  bool_decide (is_Some
    (Labels node !! "node.kubernetes.io/exclude-from-external-load-balancers")).

(** [if eligible[i] > eligible[j] { swap }]; out of range nothing happens
    (the loops below never leave the range). *)
Definition swapIfGreater (i j : nat) (eligible : list string) : list string :=
  match eligible !! i, eligible !! j with
  | Some a, Some b =>
      if String.ltb b a then <[j:=a]> (<[i:=b]> eligible) else eligible
  | _, _ => eligible
  end.

(** [for j := i + 1; j < len(eligible); j++]. *)
Definition sortInner (i : nat) (eligible : list string) : list string :=
  foldl (λ e j, swapIfGreater i j e) eligible
        (seq (S i) (length eligible - S i)).

(** [for i := 0; i < len(eligible)-1; i++]. *)
Definition sortEligible (eligible : list string) : list string :=
  foldl (λ e i, sortInner i e) eligible (seq 0 (length eligible - 1)).

Definition getPortMappingDescription (svc : Service) (port : ServicePort)
  : string :=
  let suffix := " (" +:+ Name svc +:+ ":" +:+ pretty (Port port) +:+ ")" in
  match Annotations svc !! UPnPDescriptionAnnotation with
  | Some desc =>
      if negb (String.eqb desc EmptyString) then desc +:+ suffix
      else DefaultUPnPDescription +:+ suffix
  | None => DefaultUPnPDescription +:+ suffix
  end.

Definition getPortMappingDuration (svc : Service) : Z :=
  match Annotations svc !! UPnPDurationAnnotation with
  | Some durationStr =>
      match strconv.Atoi durationStr with
      | Some duration => if 0 <=? duration then duration else DefaultUPnPDuration
      | None => DefaultUPnPDuration
      end
  | None => DefaultUPnPDuration
  end.

Definition deleteExistingMappings (c : upnpController) (name : string)
  : M (upnpController * option GoError) :=
  match mappings c !! name with
  | None => ret (c, None)
  | Some recorded =>
      forM_ recorded (λ mapping,
        _err <- DeletePortMapping (client c) (ExternalPort mapping)
                                  (Protocol mapping) ;;
        ret tt) ;;;
      ret (setMappings c (delete name (mappings c)), None)
  end.

(** The body of the two nested loops of SetBalancer for one address and
    one service port. *)
Definition createMapping (c : upnpController) (svc : Service) (lbIP : IP)
    (newMappings : list PortMapping) (port : ServicePort)
  : M (list PortMapping) :=
  if Port port =? 0 then ret newMappings
  else
    let protocol := strings.ToLower (PortProtocol port) in
    if negb (String.eqb protocol "tcp") && negb (String.eqb protocol "udp")
    then ret newMappings
    else
      let mapping := {| ExternalPort := Port port;
                        InternalPort := Port port;
                        InternalIP := lbIP;
                        Protocol := protocol;
                        Description := getPortMappingDescription svc port;
                        Duration := getPortMappingDuration svc |} in
      err <- AddPortMapping (client c) (Some mapping) ;;
      match err with
      | Some _ =>
          emit (EvServiceEvent true "UPnPMappingFailed") ;;;
          ret newMappings
      | None => ret (newMappings ++ [mapping])
      end.

Definition SetBalancer (c : upnpController) (name : string) (lbIPs : list IP)
    (svc : Service) : M (upnpController * option GoError) :=
  if negb (isUPnPEnabled svc) then ret (c, None)
  else
    r <- deleteExistingMappings c name ;;
    let c := fst r in
    newMappings <-
      foldM (λ acc lbIP, foldM (createMapping c svc lbIP) acc (Ports svc))
            [] lbIPs ;;
    let c := setMappings c (<[name := newMappings]> (mappings c)) in
    (if (0 <? length newMappings)%nat
     then emit (EvServiceEvent false "UPnPMappingCreated") ;;;
          emit (EvStatusChange (Namespace svc) (Name svc))
     else ret tt) ;;;
    ret (c, None).

Definition DeleteBalancer (c : upnpController) (name reason : string)
  : M (upnpController * option GoError) :=
  r <- deleteExistingMappings c name ;;
  let c := fst r in
  match snd r with
  | Some err => ret (c, Some err)
  | None =>
      match SplitMetaNamespaceKey name with
      | None =>
          ret (c, Some (PlainError
                          ("unexpected key format: " +:+ strconv.Quote name)))
      | Some (svcNamespace, svcName) =>
          emit (EvStatusChange svcNamespace svcName) ;;;
          ret (c, None)
      end
  end.

Section Election.

(** [activeEndpointExists] lives in another file of the speaker, over
    the endpoint slices of Kubernetes. *)
Variable EndpointSlice : Type.
Variable activeEndpointExists : list EndpointSlice → bool.

(** The order in which [range adv.Nodes] visits the names: Go leaves it
    unspecified, so it is any enumeration of the set. *)
Variable rangeOrder : gset string → list string.

Definition getEligibleNodes (pool : Pool) (nodes : gmap string Node)
  : list string :=
  let eligible :=
    foldl (λ eligible adv,
             if negb (Enabled adv) then eligible
             else
               foldl (λ eligible nodeName,
                        match nodes !! nodeName with
                        | Some node =>
                            if isNodeReady node
                               && negb (isNodeExcludedFromBalancers node)
                            then eligible ++ [nodeName]
                            else eligible
                        | None => eligible
                        end)
                     eligible (rangeOrder (Nodes adv)))
          [] (UPnPAdvertisements pool) in
  sortEligible eligible.

Definition ShouldAnnounce (c : upnpController) (pool : Pool) (svc : Service)
    (eps : list EndpointSlice) (nodes : gmap string Node) : string :=
  if negb (isUPnPEnabled svc) then "notOwner"
  else if negb (poolSupportsUPnP pool) then "notOwner"
  else if negb (activeEndpointExists eps) then "notOwner"
  else if negb (nodeMatchesUPnPAdvertisements c pool) then "notOwner"
  else
    match getEligibleNodes pool nodes with
    | [] => "notOwner"
    | first :: _ =>
        if negb (String.eqb first (myNode c)) then "notOwner" else EmptyString
    end.

End Election.

(** ** Vocabulary of the design document *)

(** A protocol value is accepted when it is "tcp" or "udp" up to case. *)
Definition validProtocol (protocol : string) : bool :=
  strings.EqualFold protocol "tcp" || strings.EqualFold protocol "udp".

(** The service carries the upnp-enabled annotation with the value "true"
    up to case. *)
Definition markedForUPnP (svc : Service) : bool :=
  match Annotations svc !! UPnPEnabledAnnotation with
  | Some value => strings.EqualFold value "true"
  | None => false
  end.

(** The key of a service: its namespace and its name with a slash in
    between; neither of the two contains a slash. *)
Fixpoint hasSlash (s : string) : bool :=
  match s with
  | EmptyString => false
  | String a s' => Ascii.eqb a "/" || hasSlash s'
  end.

Definition serviceKey (namespace name : string) : string :=
  namespace +:+ "/" +:+ name.

(** The text of the error names one of the two array faults.  This is a
    property of the text alone. *)
Definition textNamesArrayFault (text : string) : bool :=
  strings.Contains text "NoSuchEntryInArray"
  || strings.Contains text "SpecifiedArrayIndexInvalid".

(** The device reports the distinguished "no such entry" fault, or the
    "index out of range" fault: a property of the structured code alone. *)
Definition isNoSuchEntryFault (e : GoError) : bool :=
  bool_decide (faultCode e = Some NoSuchEntryInArray).

Definition isOutOfRangeFault (e : GoError) : bool :=
  bool_decide (faultCode e = Some SpecifiedArrayIndexInvalid).

(** The AddPortMapping action that creates a mapping, and the
    DeletePortMapping action that removes it. *)
Definition addAction (m : PortMapping) : AddPortMappingArgs :=
  {| NewRemoteHost := EmptyString;
     NewExternalPort := uint16 (ExternalPort m);
     NewProtocol := strings.ToUpper (Protocol m);
     NewInternalPort := uint16 (InternalPort m);
     NewInternalClient := InternalIP m;
     NewEnabled := true;
     NewPortMappingDescription := Description m;
     NewLeaseDuration := uint32 (Duration m) |}.

Definition deleteAction (m : PortMapping) (answer : option GoError) : Event :=
  EvDeletePortMapping EmptyString (uint16 (ExternalPort m))
                      (strings.ToUpper (Protocol m)) answer.

(** The creations the device confirmed, the indices it was asked for and
    the status-change notifications, as read off a stretch of the log. *)
Definition confirmedAdds (evs : list Event) : list AddPortMappingArgs :=
  omap (λ ev, match ev with
              | EvAddPortMapping args None => Some args
              | _ => None
              end) evs.

Definition entryQueries (evs : list Event) : list Z :=
  omap (λ ev, match ev with
              | EvGetGenericPortMappingEntry index _ => Some index
              | _ => None
              end) evs.

Definition statusChanges (evs : list Event) : list (string * string) :=
  omap (λ ev, match ev with
              | EvStatusChange namespace name => Some (namespace, name)
              | _ => None
              end) evs.

Definition isDeleteEvent (ev : Event) : bool :=
  match ev with EvDeletePortMapping _ _ _ _ => true | _ => false end.

Definition isEntryFault (ev : Event) : bool :=
  match ev with EvGetGenericPortMappingEntry _ (inl _) => true | _ => false end.

(** The mappings one call of SetBalancer tries to create, in the order of
    its two loops: one per address and per service port that has a port
    number and a supported protocol. *)
Definition desiredMapping (svc : Service) (lbIP : IP) (port : ServicePort)
  : option PortMapping :=
  let protocol := strings.ToLower (PortProtocol port) in
  if (Port port =? 0)
     || (negb (String.eqb protocol "tcp") && negb (String.eqb protocol "udp"))
  then None
  else Some {| ExternalPort := Port port;
               InternalPort := Port port;
               InternalIP := lbIP;
               Protocol := protocol;
               Description := getPortMappingDescription svc port;
               Duration := getPortMappingDuration svc |}.

Definition desiredMappings (svc : Service) (lbIPs : list IP)
  : list PortMapping :=
  lbIP ← lbIPs; omap (desiredMapping svc lbIP) (Ports svc).

(** What SetBalancer does with a mapping it did not skip: the end of
    [createMapping]. *)
Definition tryCreate (c : upnpController) (newMappings : list PortMapping)
    (mapping : PortMapping) : M (list PortMapping) :=
  err <- AddPortMapping (client c) (Some mapping) ;;
  match err with
  | Some _ =>
      emit (EvServiceEvent true "UPnPMappingFailed") ;;;
      ret newMappings
  | None => ret (newMappings ++ [mapping])
  end.

(** The loop of deleteExistingMappings. *)
Definition deleteRecorded (c : upnpController) (recorded : list PortMapping)
  : M unit :=
  forM_ recorded (λ mapping,
    _err <- DeletePortMapping (client c) (ExternalPort mapping)
                              (Protocol mapping) ;;
    ret tt).

(** A node is a candidate when it is in the node snapshot, ready and not
    excluded from balancers; the candidates of a pool are the allowed nodes
    of its enabled advertisements that are. *)
Definition isCandidate (nodes : gmap string Node) (name : string) : bool :=
  match nodes !! name with
  | Some node => isNodeReady node && negb (isNodeExcludedFromBalancers node)
  | None => false
  end.

Definition candidates (pool : Pool) (nodes : gmap string Node) : gset string :=
  ⋃ ((λ adv, if Enabled adv
             then filter (λ name, isCandidate nodes name = true) (Nodes adv)
             else ∅) <$> UPnPAdvertisements pool).

(** [eligibleNodes[0]], when there is one. *)
Definition electedOwner (rangeOrder : gset string → list string)
    (pool : Pool) (nodes : gmap string Node) : option string :=
  head (getEligibleNodes rangeOrder pool nodes).

(** The device the client talks to after discovery, and the first answer
    of the discovery calls: version 2 if it answered at all, else
    version 1. *)
Definition selected (r : GoError + IGDClient) : option string :=
  match r with
  | inl _ => None
  | inr c => Location <$> connection c
  end.

Definition firstAnswer (net : Network) : option (Z * WANIPConnection1) :=
  match IGD2Clients net with
  | (first :: _, None) => Some (2, first)
  | _ =>
      match IGD1Clients net with
      | (first :: _, None) => Some (1, first)
      | _ => None
      end
  end.

(** ** Sample devices and inputs *)

(** A device that gives the same answers whatever happened before. *)
Definition fixedDevice (location : string) (addAnswer deleteAnswer : option GoError)
    (entryAnswer : GoError + GenericPortMappingEntry) : WANIPConnection1 :=
  {| Location := location;
     GetExternalIPAddress := λ _, inr "203.0.113.1";
     DeviceAddPortMapping := λ _ _, addAnswer;
     DeviceDeletePortMapping := λ _ _ _ _, deleteAnswer;
     GetGenericPortMappingEntry := λ _ _, entryAnswer |}.

Definition sampleEntry : GenericPortMappingEntry :=
  {| EntryRemoteHost := EmptyString;
     EntryExternalPort := 8080;
     EntryProtocol := "TCP";
     EntryInternalPort := 80;
     EntryInternalClient := "192.168.1.100";
     EntryEnabled := true;
     EntryDescription := "Test Web Server";
     EntryLeaseDuration := 3600 |}.

(** A router that accepts everything and whose table never ends. *)
Definition obligingDevice (location : string) : WANIPConnection1 :=
  fixedDevice location None None (inr sampleEntry).

(** A router that answers every delete with the given error. *)
Definition faultyDevice (e : GoError) : WANIPConnection1 :=
  fixedDevice "http://192.168.1.1:5000/rootDesc.xml" None (Some e) (inl e).

Definition clientOf (d : WANIPConnection1) : IGDClient :=
  {| client1 := None; client2 := Some d; version := 2; externalIP := None |}.

Definition noClient : IGDClient :=
  {| client1 := None; client2 := None; version := 0; externalIP := None |}.

Definition controllerOf (d : WANIPConnection1) : upnpController :=
  {| myNode := "node-a"; client := clientOf d; mappings := ∅ |}.

Definition sampleMapping (protocol : string) : PortMapping :=
  {| ExternalPort := 8080; InternalPort := 80; InternalIP := "192.168.1.100";
     Protocol := protocol; Description := "Test"; Duration := 0 |}.

Definition sampleService (enabled : string) (ports : list ServicePort)
  : Service :=
  {| Namespace := "default"; Name := "web";
     Annotations := {[ UPnPEnabledAnnotation := enabled ]};
     Ports := ports |}.

(** A controller that has one mapping on record for the given key. *)
Definition recordingController (d : WANIPConnection1) (key : string)
  : upnpController :=
  {| myNode := "node-a"; client := clientOf d;
     mappings := {[ key := [sampleMapping "tcp"] ]} |}.

(** Two versions of one service, and the mappings SetBalancer wants for
    them on the address 192.168.1.240. *)
Definition firstService : Service :=
  sampleService "true" [ {| PortProtocol := "TCP"; Port := 80 |};
                         {| PortProtocol := "tcp"; Port := 443 |};
                         {| PortProtocol := "SCTP"; Port := 9 |} ].

Definition secondService : Service :=
  sampleService "True" [ {| PortProtocol := "UDP"; Port := 53 |} ].

Definition desiredAt (svc : Service) (i : nat) : PortMapping :=
  default (sampleMapping "tcp") (desiredMappings svc ["192.168.1.240"] !! i).

Definition readyNode : Node :=
  {| Labels := ∅;
     Conditions := [ {| ConditionType := "Ready"; ConditionStatus := "True" |} ] |}.

Definition samplePool : Pool :=
  {| PoolName := "upnp-pool";
     UPnPAdvertisements :=
       [ {| Enabled := true; Nodes := {[ "node-c"; "node-a" ]} |};
         {| Enabled := false; Nodes := {[ "node-0" ]} |};
         {| Enabled := true; Nodes := {[ "node-b"; "node-d" ]} |} ] |}.

Definition sampleNodes : gmap string Node :=
  {[ "node-a" := readyNode; "node-b" := readyNode; "node-c" := readyNode;
     "node-0" := readyNode ]}.

(** ** The remaining entry points and their vocabulary *)

(** [newUPnPController]: a controller is built around a freshly discovered
    client and starts with an empty table. *)
Definition newUPnPController (ParseIP : string → option IP) (net : Network)
    (node : string) : M (GoError + upnpController) :=
  r <- New ParseIP net ;;
  match r with
  | inl err =>
      ret (inl (wrapError "failed to initialize UPnP IGD client: " err))
  | inr igd =>
      ret (inr {| myNode := node; client := igd; mappings := ∅ |})
  end.

(** [SetNode] does not react to node changes. *)
Definition SetNode (c : upnpController) (n : Node) : option GoError := None.

(** What GetPortMappings keeps of an entry the device answered with: the
    entry has to be enabled and its internal client has to parse. *)
Definition keptMapping (ParseIP : string → option IP)
    (e : GenericPortMappingEntry) : option PortMapping :=
  if EntryEnabled e then
    match ParseIP (EntryInternalClient e) with
    | Some ip => Some {| ExternalPort := EntryExternalPort e;
                         InternalPort := EntryInternalPort e;
                         InternalIP := ip;
                         Protocol := EntryProtocol e;
                         Description := EntryDescription e;
                         Duration := EntryLeaseDuration e |}
    | None => None
    end
  else None.

(** The entries the device answered with, and the (port, protocol) pairs
    of the delete actions, as read off a stretch of the log. *)
Definition entriesAnswered (evs : list Event) : list GenericPortMappingEntry :=
  omap (λ ev, match ev with
              | EvGetGenericPortMappingEntry _ (inr e) => Some e
              | _ => None
              end) evs.

Definition deletedPairs (evs : list Event) : list (Z * string) :=
  omap (λ ev, match ev with
              | EvDeletePortMapping _ port protocol _ => Some (port, protocol)
              | _ => None
              end) evs.

(** A mapping as SetBalancer builds it for the given service and
    addresses. *)
Definition builtFor (svc : Service) (lbIPs : list IP) (m : PortMapping) : Prop :=
  (Protocol m = "tcp" ∨ Protocol m = "udp")
  ∧ ExternalPort m = InternalPort m
  ∧ ExternalPort m ≠ 0
  ∧ (∃ port, port ∈ Ports svc ∧ Port port = ExternalPort m)
  ∧ InternalIP m ∈ lbIPs
  ∧ 0 ≤ Duration m.

(** An add or delete action as the device expects it: any remote host,
    ports that fit 16 bits, the protocol in capitals, the mapping enabled,
    a lease that fits 32 bits.  Other events are not constrained. *)
Definition wellFormedAction (ev : Event) : Prop :=
  match ev with
  | EvAddPortMapping args _ =>
      NewRemoteHost args = EmptyString
      ∧ 0 ≤ NewExternalPort args < 2 ^ 16
      ∧ 0 ≤ NewInternalPort args < 2 ^ 16
      ∧ (NewProtocol args = "TCP" ∨ NewProtocol args = "UDP")
      ∧ NewEnabled args = true
      ∧ 0 ≤ NewLeaseDuration args < 2 ^ 32
  | EvDeletePortMapping host port protocol _ =>
      host = EmptyString
      ∧ 0 ≤ port < 2 ^ 16
      ∧ (protocol = "TCP" ∨ protocol = "UDP")
  | _ => True
  end.

(** The number of failed creations reported on the service
    ([client.Errorf] with the reason UPnPMappingFailed). *)
Definition isFailureReport (ev : Event) : bool :=
  match ev with EvServiceEvent true _ => true | _ => false end.

Definition failuresReported (evs : list Event) : nat :=
  length (filter (λ ev, isFailureReport ev = true) evs).

(** A device that answers the external-address query with an error, and
    one that answers with a text. *)
Definition addressDevice (answer : GoError + string) : WANIPConnection1 :=
  {| Location := "http://192.168.1.1:5000/rootDesc.xml";
     GetExternalIPAddress := λ _, answer;
     DeviceAddPortMapping := λ _ _, None;
     DeviceDeletePortMapping := λ _ _ _ _, None;
     GetGenericPortMappingEntry := λ _ _,
       inl (SOAPFault 713 "SpecifiedArrayIndexInvalid") |}.

(** A table of three entries, the second of them disabled. *)
Definition shortTable : WANIPConnection1 :=
  {| Location := "http://192.168.1.1:5000/rootDesc.xml";
     GetExternalIPAddress := λ _, inr "203.0.113.1";
     DeviceAddPortMapping := λ _ _, None;
     DeviceDeletePortMapping := λ _ _ _ _, None;
     GetGenericPortMappingEntry := λ _ index,
       if index <? 3
       then inr {| EntryRemoteHost := EmptyString;
                   EntryExternalPort := 8080 + index;
                   EntryProtocol := "TCP";
                   EntryInternalPort := 80;
                   EntryInternalClient := "192.168.1.100";
                   EntryEnabled := negb (index =? 1);
                   EntryDescription := "Test Web Server";
                   EntryLeaseDuration := 3600 |}
       else inl (SOAPFault 713 "SpecifiedArrayIndexInvalid") |}.

(** All 256 bytes, for properties of [upperByte] and [lowerByte] that are
    checked byte by byte. *)
Definition allBytes : list ascii := ascii_of_nat <$> seq 0 256.

(** * Properties *)

(** ** Case folding *)

Lemma allBytes_complete (a : ascii) : In a allBytes.
Proof.
  unfold allBytes. rewrite <- (ascii_nat_embedding a).
  apply in_map, in_seq. pose proof (nat_ascii_bounded a). lia.
Qed.

Lemma forall_bytes (P : ascii → ascii → bool) :
  forallb (λ a, forallb (P a) allBytes) allBytes = true →
  ∀ a b, P a b = true.
Proof.
  intros H a b.
  pose proof (proj1 (forallb_forall _ _) H a (allBytes_complete a)) as Ha.
  exact (proj1 (forallb_forall _ _) Ha b (allBytes_complete b)).
Qed.

Lemma upperByte_sameLetter (a b : ascii) :
  Ascii.eqb (strings.upperByte a) (strings.upperByte b) = strings.sameLetter a b.
Proof.
  apply eqb_prop.
  revert a b. apply forall_bytes. vm_compute. reflexivity.
Qed.

Lemma lowerByte_sameLetter (a b : ascii) :
  Ascii.eqb (strings.lowerByte a) (strings.lowerByte b) = strings.sameLetter a b.
Proof.
  apply eqb_prop.
  revert a b. apply forall_bytes. vm_compute. reflexivity.
Qed.

Lemma ToUpper_EqualFold (s t : string) :
  String.eqb (strings.ToUpper s) (strings.ToUpper t) = strings.EqualFold s t.
Proof.
  revert t. induction s as [|a s IH]; intros [|b t]; simpl; try reflexivity.
  rewrite upperByte_sameLetter, IH.
  destruct (strings.sameLetter a b); reflexivity.
Qed.

Lemma ToLower_EqualFold (s t : string) :
  String.eqb (strings.ToLower s) (strings.ToLower t) = strings.EqualFold s t.
Proof.
  revert t. induction s as [|a s IH]; intros [|b t]; simpl; try reflexivity.
  rewrite lowerByte_sameLetter, IH.
  destruct (strings.sameLetter a b); reflexivity.
Qed.

Lemma upper_protocol_check (protocol : string) :
  negb (String.eqb (strings.ToUpper protocol) "TCP")
  && negb (String.eqb (strings.ToUpper protocol) "UDP")
  = negb (validProtocol protocol).
Proof.
  unfold validProtocol.
  rewrite <- !ToUpper_EqualFold. simpl strings.ToUpper at 2 4.
  change (String (strings.upperByte "t") (String (strings.upperByte "c")
            (String (strings.upperByte "p") EmptyString))) with "TCP".
  change (String (strings.upperByte "u") (String (strings.upperByte "d")
            (String (strings.upperByte "p") EmptyString))) with "UDP".
  rewrite negb_orb. reflexivity.
Qed.

(** ** The protocol client, one call at a time *)

Lemma AddPortMapping_run (c : IGDClient) (m : PortMapping) (w : World) :
  AddPortMapping c (Some m) w =
  if validProtocol (Protocol m) then
    match connection c with
    | None => (Some (PlainError "no IGD client available"), w)
    | Some d =>
        let answer := DeviceAddPortMapping d w (addAction m) in
        (wrapError "failed to add port mapping: " <$> answer,
         w ++ [EvAddPortMapping (addAction m) answer])
    end
  else
    (Some (PlainError
       ("invalid protocol: " +:+ Protocol m +:+ " (must be TCP or UDP)")), w).
Proof.
  unfold AddPortMapping. rewrite upper_protocol_check.
  destruct (validProtocol (Protocol m)); simpl; [|reflexivity].
  destruct (connection c) as [d|]; [|reflexivity].
  unfold bind, callAdd, addAction. simpl.
  destruct (DeviceAddPortMapping d w _); reflexivity.
Qed.

Lemma DeletePortMapping_run (c : IGDClient) (port : Z) (protocol : string)
    (w : World) :
  DeletePortMapping c port protocol w =
  if validProtocol protocol then
    match connection c with
    | None => (Some (PlainError "no IGD client available"), w)
    | Some d =>
        let answer :=
          DeviceDeletePortMapping d w EmptyString (uint16 port) (strings.ToUpper protocol) in
        (match answer with
         | Some e =>
             if textNamesArrayFault (Error e) then None
             else Some (wrapError "failed to delete port mapping: " e)
         | None => None
         end,
         w ++ [EvDeletePortMapping EmptyString (uint16 port) (strings.ToUpper protocol)
                                  answer])
    end
  else
    (Some (PlainError
       ("invalid protocol: " +:+ strings.ToUpper protocol
        +:+ " (must be TCP or UDP)")), w).
Proof.
  unfold DeletePortMapping. rewrite upper_protocol_check.
  destruct (validProtocol protocol); simpl; [|reflexivity].
  destruct (connection c) as [d|]; [|reflexivity].
  unfold bind, callDelete, textNamesArrayFault. simpl.
  destruct (DeviceDeletePortMapping d w _ _ _) as [e|]; [|reflexivity].
  destruct (_ || _); reflexivity.
Qed.

(** C7.  Fail-fast validation.  AddPortMapping returns an error for a nil
    mapping and for every mapping whose protocol is not "tcp" or "udp" up
    to case, and DeletePortMapping returns an error for every such
    protocol; in all three cases the log is returned as it was: no action
    was sent to the device. *)
Theorem validation_fails_fast (c : IGDClient) (m : PortMapping) (port : Z)
    (protocol : string) (w : World) :
  validProtocol (Protocol m) = false →
  validProtocol protocol = false →
  AddPortMapping c None w = (Some (PlainError "port mapping cannot be nil"), w)
  ∧ AddPortMapping c (Some m) w =
      (Some (PlainError
         ("invalid protocol: " +:+ Protocol m +:+ " (must be TCP or UDP)")), w)
  ∧ DeletePortMapping c port protocol w =
      (Some (PlainError
         ("invalid protocol: " +:+ strings.ToUpper protocol
          +:+ " (must be TCP or UDP)")), w).
Proof.
  intros Hm Hp. split; [reflexivity|]. split.
  - rewrite AddPortMapping_run, Hm. reflexivity.
  - rewrite DeletePortMapping_run, Hp. reflexivity.
Qed.

Lemma validation_fails_fast_witness :
  validProtocol "INVALID" = false
  ∧ fst (AddPortMapping (clientOf (obligingDevice "http://192.168.1.1/"))
                        (Some (sampleMapping "INVALID")) [])
    = Some (PlainError "invalid protocol: INVALID (must be TCP or UDP)")
  ∧ snd (DeletePortMapping (clientOf (obligingDevice "http://192.168.1.1/"))
                           8080 "sctp" []) = [].
Proof.
  split; [reflexivity|].
  destruct (validation_fails_fast
              (clientOf (obligingDevice "http://192.168.1.1/"))
              (sampleMapping "INVALID") 8080 "sctp" [])
    as (_ & Hadd & Hdel); [reflexivity | reflexivity |].
  rewrite Hadd, Hdel. split; reflexivity.
Defined.

(** The cases of TestPortMappingValidation, TestDeletePortMapping and
    TestIsAvailable of the repository: a client without a device rejects a
    nil mapping and an invalid protocol, and fails on valid ones because no
    IGD client is available. *)
Lemma client_without_device :
  fst (AddPortMapping noClient None []) ≠ None
  ∧ fst (AddPortMapping noClient (Some (sampleMapping "INVALID")) []) ≠ None
  ∧ AddPortMapping noClient (Some (sampleMapping "TCP")) []
    = (Some (PlainError "no IGD client available"), [])
  ∧ AddPortMapping noClient (Some (sampleMapping "UDP")) []
    = (Some (PlainError "no IGD client available"), [])
  ∧ fst (DeletePortMapping noClient 8080 "INVALID" []) ≠ None
  ∧ DeletePortMapping noClient 8080 "TCP" []
    = (Some (PlainError "no IGD client available"), [])
  ∧ IsAvailable noClient = false.
Proof. vm_compute. repeat split; discriminate. Qed.

(** C6, as the code has it.  For a valid protocol and a client with a
    connection, DeletePortMapping sends one delete action and returns nil
    exactly when the device accepted it or answered with an error whose
    text contains "NoSuchEntryInArray" or "SpecifiedArrayIndexInvalid";
    every other error of the device call comes back wrapped. *)
Theorem delete_tolerates_named_faults (c : IGDClient) (d : WANIPConnection1)
    (port : Z) (protocol : string) (w : World) :
  validProtocol protocol = true →
  connection c = Some d →
  let answer :=
    DeviceDeletePortMapping d w EmptyString (uint16 port) (strings.ToUpper protocol) in
  snd (DeletePortMapping c port protocol w)
    = w ++ [EvDeletePortMapping EmptyString (uint16 port) (strings.ToUpper protocol) answer]
  ∧ (∀ e, answer = Some e → textNamesArrayFault (Error e) = true →
          fst (DeletePortMapping c port protocol w) = None)
  ∧ (∀ e, answer = Some e → textNamesArrayFault (Error e) = false →
          fst (DeletePortMapping c port protocol w)
          = Some (wrapError "failed to delete port mapping: " e))
  ∧ (answer = None → fst (DeletePortMapping c port protocol w) = None).
Proof.
  intros Hp Hc answer. rewrite DeletePortMapping_run, Hp, Hc. simpl.
  fold answer. split; [reflexivity|].
  split; [|split].
  - intros e -> ->. reflexivity.
  - intros e -> ->. reflexivity.
  - intros ->. reflexivity.
Qed.

Lemma delete_tolerates_named_faults_witness :
  fst (DeletePortMapping
         (clientOf (faultyDevice (SOAPFault 714 "NoSuchEntryInArray")))
         8080 "tcp" []) = None.
Proof.
  destruct (delete_tolerates_named_faults
              (clientOf (faultyDevice (SOAPFault 714 "NoSuchEntryInArray")))
              (faultyDevice (SOAPFault 714 "NoSuchEntryInArray"))
              8080 "tcp" [] eq_refl eq_refl) as (_ & Hnamed & _).
  exact (Hnamed (SOAPFault 714 "NoSuchEntryInArray") eq_refl eq_refl).
Defined.

(** C6, as stated, fails: the device reports "index out of range" (713),
    which is not the "no such entry" fault (714), and DeletePortMapping
    returns nil all the same. *)
Lemma delete_other_fault_is_success :
  let e := SOAPFault SpecifiedArrayIndexInvalid "SpecifiedArrayIndexInvalid" in
  isNoSuchEntryFault e = false
  ∧ DeviceDeletePortMapping (faultyDevice e) [] EmptyString 8080 "TCP" = Some e
  ∧ fst (DeletePortMapping (clientOf (faultyDevice e)) 8080 "tcp" []) = None.
Proof. vm_compute. repeat split. Qed.

(** C4, as the code has it.  Whether an error of a device call counts as
    "the entry is not there" is decided by its text alone: two errors with
    the same text get the same verdict from DeletePortMapping, whatever
    their structured codes, and the verdict is benign exactly when the text
    contains "NoSuchEntryInArray" or "SpecifiedArrayIndexInvalid".  The same
    test ends the enumeration of GetPortMappings. *)
Theorem classification_reads_text (ParseIP : string → option IP)
    (d1 d2 : WANIPConnection1) (e1 e2 : GoError) (port index : Z)
    (protocol : string) (found : list PortMapping) (fuel : nat) (w : World) :
  validProtocol protocol = true →
  DeviceDeletePortMapping d1 w EmptyString (uint16 port) (strings.ToUpper protocol)
    = Some e1 →
  DeviceDeletePortMapping d2 w EmptyString (uint16 port) (strings.ToUpper protocol)
    = Some e2 →
  GetGenericPortMappingEntry d1 w (uint16 index) = inl e1 →
  Error e1 = Error e2 →
  (fst (DeletePortMapping (clientOf d1) port protocol w) = None
   ↔ fst (DeletePortMapping (clientOf d2) port protocol w) = None)
  ∧ (fst (DeletePortMapping (clientOf d1) port protocol w) = None
     ↔ textNamesArrayFault (Error e1) = true)
  ∧ fst (GetPortMappings_loop ParseIP (S fuel) (clientOf d1) index found w)
    = Some (if textNamesArrayFault (Error e1) then inr found
            else inl (wrapError
                   ("failed to get port mapping entry " +:+ pretty index +:+ ": ")
                   e1)).
Proof.
  intros Hp H1 H2 Hget Htext.
  rewrite !DeletePortMapping_run, Hp. simpl. rewrite H1, H2, <- Htext. simpl.
  split; [|split].
  - destruct (textNamesArrayFault (Error e1)); split; congruence.
  - destruct (textNamesArrayFault (Error e1)); split; congruence.
  - unfold bind, callGetEntry. rewrite Hget.
    unfold textNamesArrayFault. rewrite (orb_comm (strings.Contains _ "NoSuchEntryInArray")).
    destruct (_ || _); reflexivity.
Qed.

Lemma classification_reads_text_witness :
  fst (DeletePortMapping
         (clientOf (faultyDevice (SOAPFault 714 "UPnPError 714: NoSuchEntryInArray")))
         8080 "udp" []) = None
  ↔ fst (DeletePortMapping
         (clientOf (faultyDevice (PlainError "UPnPError 714: NoSuchEntryInArray")))
         8080 "udp" []) = None.
Proof.
  exact (proj1 (classification_reads_text Some
           (faultyDevice (SOAPFault 714 "UPnPError 714: NoSuchEntryInArray"))
           (faultyDevice (PlainError "UPnPError 714: NoSuchEntryInArray"))
           (SOAPFault 714 "UPnPError 714: NoSuchEntryInArray")
           (PlainError "UPnPError 714: NoSuchEntryInArray")
           8080 0 "udp" [] 0 [] eq_refl eq_refl eq_refl eq_refl eq_refl)).
Defined.

(** C4, as stated, fails: two faults with the same structured code (501,
    "action failed") and different texts get different verdicts, because the
    text of the second happens to contain the name of the benign fault; and
    the enumeration takes that second fault for the end of the list. *)
Lemma same_code_different_verdict :
  let e1 := SOAPFault 501 "Action Failed" in
  let e2 := SOAPFault 501 "Action Failed (while handling NoSuchEntryInArray)" in
  faultCode e1 = faultCode e2
  ∧ isNoSuchEntryFault e2 = false
  ∧ isOutOfRangeFault e2 = false
  ∧ fst (DeletePortMapping (clientOf (faultyDevice e1)) 8080 "tcp" [])
    = Some (wrapError "failed to delete port mapping: " e1)
  ∧ fst (DeletePortMapping (clientOf (faultyDevice e2)) 8080 "tcp" []) = None
  ∧ fst (GetPortMappings Some 1 (clientOf (faultyDevice e1)) [])
    = Some (inl (wrapError "failed to get port mapping entry 0: " e1))
  ∧ fst (GetPortMappings Some 1 (clientOf (faultyDevice e2)) [])
    = Some (inr []).
Proof. vm_compute. repeat split. Qed.

(** ** Enumeration *)

Lemma uint16_small (index : Z) : 0 ≤ index ≤ 1000 → uint16 index = index.
Proof. intros H. unfold uint16. apply Z.mod_small. lia. Qed.

Lemma GetPortMappings_loop_bounded (ParseIP : string → option IP)
    (c : IGDClient) (fuel : nat) :
  ∀ (index : Z) (found : list PortMapping) (w : World),
    0 ≤ index ≤ 1000 →
    1001 - index ≤ Z.of_nat fuel →
    ∃ result evs,
      GetPortMappings_loop ParseIP fuel c index found w = (Some result, w ++ evs)
      ∧ Z.of_nat (length evs) ≤ 1001 - index
      ∧ entryQueries evs = (λ k : nat, index + Z.of_nat k) <$> seq 0 (length evs)
      ∧ (∀ pre ev post, evs = pre ++ ev :: post →
                        isEntryFault ev = true → post = []).
Proof.
  induction fuel as [|fuel IH]; intros index found w Hindex Hfuel; [lia|].
  simpl. destruct (connection c) as [d|].
  2:{ exists (inl (PlainError "no IGD client available")), [].
      rewrite app_nil_r. repeat split; [simpl; lia|].
      intros [|??] ???; discriminate. }
  unfold bind at 1. unfold callGetEntry at 1.
  rewrite (uint16_small index Hindex).
  destruct (GetGenericPortMappingEntry d w index) as [err|e] eqn:Hanswer.
  - (* the device answers with an error: the loop ends here *)
    destruct (_ || _);
      (eexists _, [_]; split; [reflexivity|];
       repeat split; [simpl; lia| simpl; f_equal; lia |];
       intros [|? [|??]] ???; intros; simplify_eq/=; reflexivity).
  - destruct (index + 1 >? 1000) eqn:Hlimit.
    + (* the safety limit *)
      eexists _, [_]. split; [reflexivity|].
      repeat split; [simpl; lia| simpl; f_equal; lia |].
      intros [|? [|??]] ???; intros; simplify_eq/=; reflexivity.
    + rewrite Z.gtb_ltb in Hlimit. apply Z.ltb_ge in Hlimit.
      edestruct (IH (index + 1)) as (result & evs & Hrun & Hlen & Hqueries & Hlast);
        [lia | lia |].
      exists result, (EvGetGenericPortMappingEntry index (inr e) :: evs).
      split; [|split; [|split]].
      * rewrite Hrun. f_equal. rewrite <- app_assoc. reflexivity.
      * simpl length. lia.
      * simpl. rewrite Hqueries. f_equal; [lia|].
        rewrite <- fmap_S_seq, <- list_fmap_compose.
        apply list_fmap_ext. intros _ k _. simpl. lia.
      * intros [|first pre] ev post Hsplit Hfault; simplify_eq/=.
        eapply Hlast; eauto.
Qed.

(** C8.  Bounded enumeration.  Whatever the device answers, the loop of
    GetPortMappings ends: given fuel for 1001 rounds it returns, having sent
    at most 1001 entry queries (the test [index > 1000] comes after the
    increment, so the indices 0 to 1000 can all be asked for), for the
    indices 0, 1, 2, ... in this order and nothing else; and a query that
    the device answers with an error, the out-of-range fault among them, is
    the last one. *)
Theorem enumeration_is_bounded (ParseIP : string → option IP) (c : IGDClient)
    (fuel : nat) (w : World) :
  (1001 ≤ fuel)%nat →
  ∃ result evs,
    GetPortMappings ParseIP fuel c w = (Some result, w ++ evs)
    ∧ (length evs ≤ 1001)%nat
    ∧ entryQueries evs = Z.of_nat <$> seq 0 (length evs)
    ∧ (∀ pre ev post, evs = pre ++ ev :: post →
                      isEntryFault ev = true → post = []).
Proof.
  intros Hfuel.
  destruct (GetPortMappings_loop_bounded ParseIP c fuel 0 [] w)
    as (result & evs & Hrun & Hlen & Hqueries & Hlast); [lia | lia |].
  exists result, evs. split; [exact Hrun|]. split; [lia|]. split; [|exact Hlast].
  rewrite Hqueries. apply list_fmap_ext. intros _ k _. lia.
Qed.

Lemma enumeration_is_bounded_witness :
  ∃ result evs,
    GetPortMappings Some 1001
      (clientOf (obligingDevice "http://192.168.1.1/")) []
    = (Some result, [] ++ evs)
    ∧ (length evs ≤ 1001)%nat
    ∧ entryQueries evs = Z.of_nat <$> seq 0 (length evs)
    ∧ (∀ pre ev post, evs = pre ++ ev :: post →
                      isEntryFault ev = true → post = []).
Proof.
  apply (enumeration_is_bounded Some
           (clientOf (obligingDevice "http://192.168.1.1/")) 1001 []).
  lia.
Defined.

(** The bound of C8 is reached: a device whose table never ends is asked
    1001 times, and 1001 mappings are returned. *)
Lemma enumeration_bound_is_reached :
  let run := GetPortMappings Some 2000
               (clientOf (obligingDevice "http://192.168.1.1/")) [] in
  length (entryQueries (snd run)) = 1001%nat
  ∧ (length <$> (fst run ≫= λ r, match r with inr l => Some l | inl _ => None end))
    = Some 1001%nat.
Proof. vm_compute. split; reflexivity. Qed.

(** A device that reports the end of its table after three entries is not
    asked a fifth time. *)
Lemma enumeration_stops_at_fault :
  let d := {| Location := "http://192.168.1.1/";
              GetExternalIPAddress := λ _, inr "203.0.113.1";
              DeviceAddPortMapping := λ _ _, None;
              DeviceDeletePortMapping := λ _ _ _ _, None;
              GetGenericPortMappingEntry := λ _ index,
                if index <? 3 then inr sampleEntry
                else inl (SOAPFault 713 "SpecifiedArrayIndexInvalid") |} in
  let run := GetPortMappings Some 2000 (clientOf d) [] in
  entryQueries (snd run) = [0; 1; 2; 3]
  ∧ (length <$> (fst run ≫= λ r, match r with inr l => Some l | inl _ => None end))
    = Some 3%nat.
Proof. vm_compute. split; reflexivity. Qed.

(** ** Discovery *)

Lemma updateExternalIP_keeps_connection (ParseIP : string → option IP)
    (c : IGDClient) (w : World) :
  version (fst (updateExternalIP ParseIP c w)).1 = version c
  ∧ connection (fst (updateExternalIP ParseIP c w)).1 = connection c.
Proof.
  unfold updateExternalIP.
  destruct (connection c) as [d|] eqn:Hc; [|simpl; auto].
  unfold bind, callGetExternalIP.
  destruct (GetExternalIPAddress d w) as [e|text]; [simpl; auto|].
  destruct (ParseIP text); simpl; auto.
Qed.

(** C5, as the code has it.  Discovery takes the first client of the list
    the version-2 discovery call returned, if that call succeeded with a
    non-empty list, and else the first client of the version-1 list; it
    fails when neither call has an answer.  No comparison of locations is
    made. *)
Theorem discovery_takes_first_answer (ParseIP : string → option IP)
    (net : Network) (w : World) :
  match firstAnswer net with
  | Some (v, d) =>
      ∃ c, fst (New ParseIP net w) = inr c
           ∧ version c = v ∧ connection c = Some d
  | None => ∃ e, fst (New ParseIP net w) = inl e
  end.
Proof.
  unfold firstAnswer, New, discoverIGD2, discoverIGD1.
  destruct (IGD2Clients net) as [[|d2 l2] [e2|]];
    destruct (IGD1Clients net) as [[|d1 l1] [e1|]]; simpl;
    try (eexists; reflexivity);
    match goal with
    | |- context [bind (updateExternalIP ParseIP ?c) _ w] =>
        destruct (updateExternalIP_keeps_connection ParseIP c w) as [Hv Hc];
        unfold bind; destruct (updateExternalIP ParseIP c w) as [[c' err] w'];
        simpl in *; exists c'; split; [reflexivity|]; split; [exact Hv|];
        rewrite Hc; reflexivity
    end.
Qed.

(** C5, as stated, fails: two version-2 devices answer, the one with the
    larger location first.  Discovery selects it, and selects the other one
    when the same two devices answer in the other order. *)
Lemma first_responder_is_selected :
  let a := obligingDevice "http://192.168.1.1:5000/rootDesc.xml" in
  let b := obligingDevice "http://192.168.1.254:5000/rootDesc.xml" in
  let answers l := {| IGD2Clients := (l, None); IGD1Clients := ([], None) |} in
  String.ltb (Location a) (Location b) = true
  ∧ selected (fst (New Some (answers [b; a]) [])) = Some (Location b)
  ∧ selected (fst (New Some (answers [a; b]) [])) = Some (Location a).
Proof. vm_compute. repeat split. Qed.

(** ** The mapping table *)

Lemma markedForUPnP_enabled (svc : Service) :
  isUPnPEnabled svc = markedForUPnP svc.
Proof.
  unfold isUPnPEnabled, markedForUPnP.
  destruct (Annotations svc !! UPnPEnabledAnnotation) as [value|]; [|reflexivity].
  rewrite <- ToLower_EqualFold. reflexivity.
Qed.

Lemma setMappings_same (c : upnpController) : setMappings c (mappings c) = c.
Proof. destruct c. reflexivity. Qed.

Lemma foldM_app {A S : Type} (f : S → A → M S) (l1 l2 : list A) :
  ∀ (s : S) (w : World),
    foldM f s (l1 ++ l2) w
    = let '(s', w') := foldM f s l1 w in foldM f s' l2 w'.
Proof.
  induction l1 as [|x l1 IH]; intros s w; simpl; [reflexivity|].
  unfold bind. destruct (f s x w) as [s' w']. apply IH.
Qed.

Lemma createMapping_desired (c : upnpController) (svc : Service) (lbIP : IP)
    (acc : list PortMapping) (port : ServicePort) :
  createMapping c svc lbIP acc port
  = match desiredMapping svc lbIP port with
    | Some m => tryCreate c acc m
    | None => ret acc
    end.
Proof.
  unfold createMapping, desiredMapping, tryCreate.
  destruct (Port port =? 0); simpl; [reflexivity|].
  destruct (negb _ && negb _); reflexivity.
Qed.

Lemma create_ports (c : upnpController) (svc : Service) (lbIP : IP)
    (ports : list ServicePort) :
  ∀ acc w,
    foldM (createMapping c svc lbIP) acc ports w
    = foldM (tryCreate c) acc (omap (desiredMapping svc lbIP) ports) w.
Proof.
  induction ports as [|port ports IH]; intros acc w; simpl; [reflexivity|].
  unfold bind at 1. rewrite createMapping_desired.
  destruct (desiredMapping svc lbIP port) as [m|]; simpl.
  - unfold bind. destruct (tryCreate c acc m w) as [acc' w']. apply IH.
  - apply IH.
Qed.

Lemma create_addresses (c : upnpController) (svc : Service) (lbIPs : list IP) :
  ∀ acc w,
    foldM (λ acc lbIP, foldM (createMapping c svc lbIP) acc (Ports svc))
          acc lbIPs w
    = foldM (tryCreate c) acc (desiredMappings svc lbIPs) w.
Proof.
  induction lbIPs as [|lbIP lbIPs IH]; intros acc w; [reflexivity|].
  unfold desiredMappings. simpl. fold (desiredMappings svc lbIPs).
  rewrite foldM_app. unfold bind at 1. rewrite create_ports.
  destruct (foldM (tryCreate c) acc _ w) as [acc' w']. apply IH.
Qed.

Lemma desired_protocol (svc : Service) (lbIPs : list IP) (m : PortMapping) :
  m ∈ desiredMappings svc lbIPs → validProtocol (Protocol m) = true.
Proof.
  unfold desiredMappings. rewrite list_elem_of_bind.
  intros (lbIP & Hm & _). apply list_elem_of_omap in Hm as (port & _ & Hm).
  unfold desiredMapping in Hm.
  destruct (Port port =? 0); [discriminate|]. simpl in Hm.
  destruct (String.eqb_spec (strings.ToLower (PortProtocol port)) "tcp") as [Ht|_].
  { simplify_eq/=. rewrite Ht. reflexivity. }
  destruct (String.eqb_spec (strings.ToLower (PortProtocol port)) "udp") as [Hu|_].
  { simplify_eq/=. rewrite Hu. reflexivity. }
  discriminate.
Qed.

Lemma tryCreate_run (c : upnpController) (acc : list PortMapping)
    (m : PortMapping) (w : World) :
  validProtocol (Protocol m) = true →
  tryCreate c acc m w =
  match connection (client c) with
  | None => (acc, w ++ [EvServiceEvent true "UPnPMappingFailed"])
  | Some d =>
      match DeviceAddPortMapping d w (addAction m) with
      | Some e =>
          (acc, w ++ [EvAddPortMapping (addAction m) (Some e);
                      EvServiceEvent true "UPnPMappingFailed"])
      | None => (acc ++ [m], w ++ [EvAddPortMapping (addAction m) None])
      end
  end.
Proof.
  intros Hm. unfold tryCreate, bind at 1. rewrite AddPortMapping_run, Hm.
  destruct (connection (client c)) as [d|]; [|reflexivity].
  simpl. destruct (DeviceAddPortMapping d w (addAction m)); simpl.
  - unfold bind, emit, ret. rewrite <- app_assoc. reflexivity.
  - reflexivity.
Qed.

(** The creation loop: what it records is a sublist of what was desired,
    and corresponds, one to one and in order, to the add actions the
    device confirmed; it sends no delete action and no notification. *)
Lemma create_loop_run (c : upnpController) (desired : list PortMapping) :
  Forall (λ m, validProtocol (Protocol m) = true) desired →
  ∀ acc w, ∃ created evs,
    foldM (tryCreate c) acc desired w = (acc ++ created, w ++ evs)
    ∧ created `sublist_of` desired
    ∧ addAction <$> created = confirmedAdds evs
    ∧ statusChanges evs = []
    ∧ Forall (λ ev, isDeleteEvent ev = false) evs.
Proof.
  induction 1 as [|m desired Hm _ IH]; intros acc w.
  { exists [], []. rewrite !app_nil_r. repeat split; constructor. }
  simpl. unfold bind. rewrite (tryCreate_run c acc m w Hm).
  destruct (connection (client c)) as [d|].
  - destruct (DeviceAddPortMapping d w (addAction m)) as [e|].
    + destruct (IH acc (w ++ [EvAddPortMapping (addAction m) (Some e);
                              EvServiceEvent true "UPnPMappingFailed"]))
        as (created & evs & Hrun & Hsub & Hadds & Hstatus & Hdel).
      exists created, (EvAddPortMapping (addAction m) (Some e)
                       :: EvServiceEvent true "UPnPMappingFailed" :: evs).
      rewrite Hrun, <- app_assoc. repeat split; simpl; auto.
      by apply sublist_cons.
    + destruct (IH (acc ++ [m]) (w ++ [EvAddPortMapping (addAction m) None]))
        as (created & evs & Hrun & Hsub & Hadds & Hstatus & Hdel).
      exists (m :: created), (EvAddPortMapping (addAction m) None :: evs).
      rewrite Hrun, <- !app_assoc. repeat split; simpl; auto.
      * by apply sublist_skip.
      * by f_equal.
  - destruct (IH acc (w ++ [EvServiceEvent true "UPnPMappingFailed"]))
      as (created & evs & Hrun & Hsub & Hadds & Hstatus & Hdel).
    exists created, (EvServiceEvent true "UPnPMappingFailed" :: evs).
    rewrite Hrun, <- app_assoc. repeat split; simpl; auto.
    by apply sublist_cons.
Qed.

(** The deletion loop: it sends delete actions only; with a connection
    and valid protocols, one for each recorded mapping, in order, whatever
    the device answers. *)
Lemma delete_loop_run (c : upnpController) (recorded : list PortMapping) :
  ∀ w, ∃ evs,
    deleteRecorded c recorded w = (tt, w ++ evs)
    ∧ Forall (λ ev, isDeleteEvent ev = true) evs
    ∧ (∀ d, connection (client c) = Some d →
            Forall (λ m, validProtocol (Protocol m) = true) recorded →
            ∃ answers, evs = zip_with deleteAction recorded answers
                       ∧ length answers = length recorded).
Proof.
  unfold deleteRecorded.
  induction recorded as [|m recorded IH]; intros w.
  { exists []. rewrite app_nil_r. repeat split; [constructor|].
    intros. exists []. split; reflexivity. }
  simpl. unfold bind at 1 2. rewrite DeletePortMapping_run.
  destruct (validProtocol (Protocol m)) eqn:Hm.
  - destruct (connection (client c)) as [d|] eqn:Hc.
    + simpl.
      set (answer := DeviceDeletePortMapping d w EmptyString _ _).
      destruct (IH (w ++ [deleteAction m answer])) as (evs & Hrun & Hdel & Hall).
      exists (deleteAction m answer :: evs).
      unfold deleteAction in *. rewrite Hrun, <- app_assoc.
      repeat split; [by constructor|].
      intros d' Hd' Hvalid. apply Forall_cons in Hvalid as [_ Hvalid].
      destruct (Hall d' Hd' Hvalid) as (answers & -> & Hlen).
      exists (answer :: answers). simpl. split; [reflexivity | by f_equal].
    + simpl. destruct (IH w) as (evs & Hrun & Hdel & _).
      exists evs. rewrite Hrun. repeat split; [done|].
      intros; discriminate.
  - simpl. destruct (IH w) as (evs & Hrun & Hdel & _).
    exists evs. rewrite Hrun. repeat split; [done|].
    intros d _ Hvalid. apply Forall_cons in Hvalid as [Hbad _]. congruence.
Qed.

Lemma deleteExistingMappings_run (c : upnpController) (name : string)
    (w : World) :
  deleteExistingMappings c name w
  = ((setMappings c (delete name (mappings c)), None),
     snd (deleteRecorded c (default [] (mappings c !! name)) w)).
Proof.
  unfold deleteExistingMappings.
  destruct (mappings c !! name) as [recorded|] eqn:Hname; simpl.
  - change (forM_ recorded _) with (deleteRecorded c recorded).
    unfold bind. destruct (deleteRecorded c recorded w). reflexivity.
  - unfold ret. rewrite delete_id by done. by rewrite setMappings_same.
Qed.

Lemma SetBalancer_run (c : upnpController) (name : string) (lbIPs : list IP)
    (svc : Service) (w : World) :
  markedForUPnP svc = true →
  SetBalancer c name lbIPs svc w =
  let w1 := snd (deleteRecorded c (default [] (mappings c !! name)) w) in
  let '(created, w2) := foldM (tryCreate c) [] (desiredMappings svc lbIPs) w1 in
  ((setMappings c (<[name := created]> (mappings c)), None),
   w2 ++ if (0 <? length created)%nat
         then [EvServiceEvent false "UPnPMappingCreated";
               EvStatusChange (Namespace svc) (Name svc)]
         else []).
Proof.
  intros Hsvc. unfold SetBalancer.
  rewrite markedForUPnP_enabled, Hsvc. change (negb true) with false. cbv iota.
  unfold bind at 1. rewrite deleteExistingMappings_run.
  destruct (deleteRecorded c _ w) as [[] w1]. cbn [fst snd].
  unfold bind at 1. rewrite create_addresses.
  change (tryCreate (setMappings c (delete name (mappings c))))
    with (tryCreate c).
  destruct (foldM (tryCreate c) [] (desiredMappings svc lbIPs) w1)
    as [created w2].
  simpl mappings. rewrite insert_delete_eq.
  change (setMappings (setMappings c _) ?m) with (setMappings c m).
  destruct (0 <? length created)%nat.
  - unfold bind, emit, ret. rewrite <- app_assoc. reflexivity.
  - unfold bind, ret. rewrite app_nil_r. reflexivity.
Qed.

Lemma DeleteBalancer_run (c : upnpController) (name reason : string)
    (w : World) :
  DeleteBalancer c name reason w =
  let w1 := snd (deleteRecorded c (default [] (mappings c !! name)) w) in
  let c' := setMappings c (delete name (mappings c)) in
  match SplitMetaNamespaceKey name with
  | Some (svcNamespace, svcName) =>
      ((c', None), w1 ++ [EvStatusChange svcNamespace svcName])
  | None =>
      ((c', Some (PlainError
                    ("unexpected key format: " +:+ strconv.Quote name))), w1)
  end.
Proof.
  unfold DeleteBalancer, bind at 1. rewrite deleteExistingMappings_run.
  simpl. destruct (SplitMetaNamespaceKey name) as [[svcNamespace svcName]|];
    reflexivity.
Qed.

(** C10.  A service that does not carry the upnp-enabled annotation with
    the value "true" (up to case) is not touched: SetBalancer returns nil,
    the controller with its table of recorded mappings is the one that went
    in, and nothing was added to the log, so no mapping was deleted on the
    device. *)
Theorem unmarked_service_is_left_alone (c : upnpController) (name : string)
    (lbIPs : list IP) (svc : Service) (w : World) :
  markedForUPnP svc = false →
  SetBalancer c name lbIPs svc w = ((c, None), w).
Proof.
  intros Hsvc. unfold SetBalancer. rewrite markedForUPnP_enabled, Hsvc.
  reflexivity.
Qed.

(** Removal for a key that splits into namespace and name (a plain name
    included, with the empty namespace): DeleteBalancer returns nil, the
    key has no record afterwards, and the log grows by delete actions and
    then one status-change notification, whatever the device answered to
    the deletions.  *)
Lemma remove_notifies_for_split_key (c : upnpController)
    (name reason svcNamespace svcName : string) (w : World) :
  SplitMetaNamespaceKey name = Some (svcNamespace, svcName) →
  ∃ c' deletions,
    DeleteBalancer c name reason w
    = ((c', None), w ++ deletions ++ [EvStatusChange svcNamespace svcName])
    ∧ mappings c' !! name = None
    ∧ Forall (λ ev, isDeleteEvent ev = true) deletions
    ∧ statusChanges (deletions ++ [EvStatusChange svcNamespace svcName])
      = [(svcNamespace, svcName)].
Proof.
  intros Hkey. rewrite DeleteBalancer_run, Hkey. simpl.
  destruct (delete_loop_run c (default [] (mappings c !! name)) w)
    as (deletions & Hrun & Hdel & _).
  exists (setMappings c (delete name (mappings c))), deletions.
  rewrite Hrun. simpl. rewrite <- app_assoc.
  split; [reflexivity|]. split; [apply lookup_delete_eq|]. split; [exact Hdel|].
  unfold statusChanges. rewrite omap_app. simpl.
  clear Hrun. induction Hdel as [|ev evs Hev _ IH]; [reflexivity|].
  destruct ev; try discriminate. exact IH.
Qed.

Lemma remove_notifies_for_split_key_witness :
  ∃ c' deletions,
    DeleteBalancer
      (recordingController (faultyDevice (SOAPFault 501 "Action Failed"))
                           "default/web")
      "default/web" "service deleted" []
    = ((c', None), [] ++ deletions ++ [EvStatusChange "default" "web"])
    ∧ mappings c' !! "default/web" = None
    ∧ Forall (λ ev, isDeleteEvent ev = true) deletions
    ∧ statusChanges (deletions ++ [EvStatusChange "default" "web"])
      = [("default", "web")].
Proof.
  apply (remove_notifies_for_split_key
           (recordingController (faultyDevice (SOAPFault 501 "Action Failed"))
                                "default/web")
           "default/web" "service deleted" "default" "web" []).
  reflexivity.
Defined.

(** A string with two slashes is not the key of a service.  Handed such a
    string, DeleteBalancer still deletes what is on record for it and
    clears the record, and then returns the error of the key split, which
    quotes the string; the callback is not reached. *)
Lemma remove_with_malformed_key :
  let key := "default/web/extra" in
  let run := DeleteBalancer
               (recordingController (obligingDevice "http://192.168.1.1/") key)
               key "service deleted" [] in
  statusChanges (snd run) = []
  ∧ snd run = [EvDeletePortMapping EmptyString 8080 "TCP" None]
  ∧ mappings (fst (fst run)) !! key = None
  ∧ snd (fst run)
    = Some (PlainError
              ("unexpected key format: "
               +:+ String strconv.doubleQuote
                     ("default/web/extra"
                      +:+ String strconv.doubleQuote EmptyString))).
Proof. vm_compute. repeat split. Qed.

Lemma append_cons (a : ascii) (s t : string) :
  String a s +:+ t = String a (s +:+ t).
Proof. reflexivity. Qed.

Lemma SplitSlash_no_slash (s : string) :
  hasSlash s = false → strings.SplitSlash s = [s].
Proof.
  induction s as [|a s IH]; simpl; [done|].
  intros [Ha Hs]%orb_false_iff. rewrite Ha, (IH Hs). done.
Qed.

Lemma SplitSlash_serviceKey (namespace name : string) :
  hasSlash namespace = false → hasSlash name = false →
  strings.SplitSlash (serviceKey namespace name) = [namespace; name].
Proof.
  unfold serviceKey. intros Hns Hname.
  induction namespace as [|a namespace IH].
  - change (EmptyString +:+ "/" +:+ name) with (String "/" name).
    simpl. by rewrite SplitSlash_no_slash.
  - simpl in Hns. apply orb_false_iff in Hns as [Ha Hns].
    rewrite append_cons. simpl. rewrite Ha, (IH Hns). done.
Qed.

Lemma SplitMetaNamespaceKey_serviceKey (namespace name : string) :
  hasSlash namespace = false → hasSlash name = false →
  SplitMetaNamespaceKey (serviceKey namespace name) = Some (namespace, name).
Proof.
  intros Hns Hname. unfold SplitMetaNamespaceKey.
  by rewrite SplitSlash_serviceKey.
Qed.

(** C9.  Removal clears the record and notifies once.  For the key of
    every service (namespace, slash, name), every controller and every
    device, DeleteBalancer returns nil, leaves the key without a record, and
    extends the log by delete actions and then exactly one status-change
    notification, for this namespace and name: the notification comes after
    the deletions and does not depend on what the device answered to
    them. *)
Theorem remove_clears_and_notifies_once (c : upnpController)
    (namespace name reason : string) (w : World) :
  hasSlash namespace = false →
  hasSlash name = false →
  ∃ c' deletions,
    DeleteBalancer c (serviceKey namespace name) reason w
    = ((c', None), w ++ deletions ++ [EvStatusChange namespace name])
    ∧ mappings c' !! serviceKey namespace name = None
    ∧ Forall (λ ev, isDeleteEvent ev = true) deletions
    ∧ statusChanges (deletions ++ [EvStatusChange namespace name])
      = [(namespace, name)].
Proof.
  intros Hns Hname.
  apply remove_notifies_for_split_key.
  by apply SplitMetaNamespaceKey_serviceKey.
Qed.

Lemma remove_clears_and_notifies_once_witness :
  ∃ c' deletions,
    DeleteBalancer
      (recordingController (faultyDevice (SOAPFault 501 "Action Failed"))
                           "default/web")
      (serviceKey "default" "web") "service deleted" []
    = ((c', None), [] ++ deletions ++ [EvStatusChange "default" "web"])
    ∧ mappings c' !! serviceKey "default" "web" = None
    ∧ Forall (λ ev, isDeleteEvent ev = true) deletions
    ∧ statusChanges (deletions ++ [EvStatusChange "default" "web"])
      = [("default", "web")].
Proof.
  apply (remove_clears_and_notifies_once
           (recordingController (faultyDevice (SOAPFault 501 "Action Failed"))
                                "default/web")
           "default" "web" "service deleted" []);
    reflexivity.
Defined.

Lemma unmarked_service_is_left_alone_witness :
  SetBalancer
    (recordingController (obligingDevice "http://192.168.1.1/") "default/web")
    "default/web" ["192.168.1.240"]
    (sampleService "false" [ {| PortProtocol := "TCP"; Port := 80 |} ]) []
  = ((recordingController (obligingDevice "http://192.168.1.1/") "default/web",
      None), []).
Proof.
  apply unmarked_service_is_left_alone. reflexivity.
Defined.

Lemma confirmedAdds_deletions (evs : list Event) :
  Forall (λ ev, isDeleteEvent ev = true) evs → confirmedAdds evs = [].
Proof.
  induction 1 as [|ev evs Hev _ IH]; [reflexivity|].
  destruct ev; try discriminate. exact IH.
Qed.

Lemma confirmedAdds_app (evs1 evs2 : list Event) :
  confirmedAdds (evs1 ++ evs2) = confirmedAdds evs1 ++ confirmedAdds evs2.
Proof. apply omap_app. Qed.

(** One call of SetBalancer for a marked service, put together: the
    deletions, then the creations, then the notification if anything was
    created. *)
Lemma SetBalancer_stages (c : upnpController) (name : string)
    (lbIPs : list IP) (svc : Service) (w : World) :
  markedForUPnP svc = true →
  ∃ deletions created evs,
    SetBalancer c name lbIPs svc w
    = ((setMappings c (<[name := created]> (mappings c)), None),
       w ++ deletions ++ evs ++
       if (0 <? length created)%nat
       then [EvServiceEvent false "UPnPMappingCreated";
             EvStatusChange (Namespace svc) (Name svc)]
       else [])
    ∧ deleteRecorded c (default [] (mappings c !! name)) w = (tt, w ++ deletions)
    ∧ foldM (tryCreate c) [] (desiredMappings svc lbIPs) (w ++ deletions)
      = (created, w ++ deletions ++ evs)
    ∧ Forall (λ ev, isDeleteEvent ev = true) deletions
    ∧ created `sublist_of` desiredMappings svc lbIPs
    ∧ addAction <$> created = confirmedAdds evs.
Proof.
  intros Hsvc.
  destruct (delete_loop_run c (default [] (mappings c !! name)) w)
    as (deletions & Hdelete & Hdel & _).
  destruct (create_loop_run c (desiredMappings svc lbIPs)) with
    (acc := @nil PortMapping) (w := w ++ deletions)
    as (created & evs & Hcreate & Hsub & Hadds & _ & _).
  { apply Forall_forall. intros m. apply desired_protocol. }
  exists deletions, created, evs.
  rewrite (SetBalancer_run c name lbIPs svc w Hsvc), Hdelete. simpl.
  rewrite Hcreate. simpl. rewrite <- !app_assoc.
  repeat split; auto.
Qed.

(** C3.  The bookkeeping table after an apply and after a remove.  After
    SetBalancer for a marked service the key is on record with a sublist of
    the mappings this call wanted, namely those whose creation the device
    confirmed during this call: the recorded list and the confirmed add
    actions of the call correspond one to one, in order, so a mapping whose
    creation failed is not on record.  After DeleteBalancer the key has no
    record, whatever the call returns. *)
Theorem record_is_what_was_confirmed (c : upnpController)
    (name reason : string) (lbIPs : list IP) (svc : Service) (w : World) :
  markedForUPnP svc = true →
  (∃ c' recorded evs,
      SetBalancer c name lbIPs svc w = ((c', None), w ++ evs)
      ∧ mappings c' !! name = Some recorded
      ∧ recorded `sublist_of` desiredMappings svc lbIPs
      ∧ addAction <$> recorded = confirmedAdds evs)
  ∧ (∃ c' err evs,
        DeleteBalancer c name reason w = ((c', err), w ++ evs)
        ∧ mappings c' !! name = None).
Proof.
  intros Hsvc. split.
  - destruct (SetBalancer_stages c name lbIPs svc w Hsvc)
      as (deletions & created & evs & Hrun & _ & _ & Hdel & Hsub & Hadds).
    eexists _, created, _. split; [exact Hrun|].
    split; [apply lookup_insert_eq|]. split; [exact Hsub|].
    rewrite !confirmedAdds_app, (confirmedAdds_deletions _ Hdel), Hadds.
    destruct (0 <? length created)%nat; simpl; by rewrite app_nil_r.
  - rewrite DeleteBalancer_run.
    destruct (delete_loop_run c (default [] (mappings c !! name)) w)
      as (deletions & Hdelete & _).
    rewrite Hdelete. simpl.
    destruct (SplitMetaNamespaceKey name) as [[svcNamespace svcName]|].
    + eexists _, _, _. rewrite <- app_assoc.
      split; [reflexivity | apply lookup_delete_eq].
    + eexists _, _, _. split; [reflexivity | apply lookup_delete_eq].
Qed.

Lemma record_is_what_was_confirmed_witness :
  (∃ c' recorded evs,
      SetBalancer (controllerOf (obligingDevice "http://192.168.1.1/"))
        "default/web" ["192.168.1.240"]
        (sampleService "TRUE" [ {| PortProtocol := "TCP"; Port := 80 |} ]) []
      = ((c', None), [] ++ evs)
      ∧ mappings c' !! "default/web" = Some recorded
      ∧ recorded `sublist_of`
          desiredMappings
            (sampleService "TRUE" [ {| PortProtocol := "TCP"; Port := 80 |} ])
            ["192.168.1.240"]
      ∧ addAction <$> recorded = confirmedAdds evs)
  ∧ (∃ c' err evs,
        DeleteBalancer (controllerOf (obligingDevice "http://192.168.1.1/"))
          "default/web" "service deleted" []
        = ((c', err), [] ++ evs)
        ∧ mappings c' !! "default/web" = None).
Proof.
  apply record_is_what_was_confirmed. reflexivity.
Defined.

Lemma sublist_same_length {A : Type} (l1 l2 : list A) :
  l1 `sublist_of` l2 → length l1 = length l2 → l1 = l2.
Proof.
  induction 1 as [|x l1 l2 _ IH|x l1 l2 Hsub _]; intros Hlen.
  - reflexivity.
  - f_equal. apply IH. simpl in Hlen. lia.
  - apply sublist_length in Hsub. simpl in Hlen. lia.
Qed.

(** C1.  Full replace.  A marked service is applied with the desired
    mappings A and B, and the device confirms both creations; then the same
    key is applied with the desired mapping C, and the device confirms its
    creation.  After the first call A and B are on record; after the second
    exactly C is, so A and B are no longer on record (unless C is one of
    them); and the second call sent, in this order, a delete action for A,
    a delete action for B, the add action for C, and then the notification:
    both deletions were attempted before any creation. *)
Theorem full_replace (c c1 c2 : upnpController) (name : string)
    (lbIPs1 lbIPs2 : list IP) (svc1 svc2 : Service) (A B C : PortMapping)
    (w : World) (evs1 evs2 : list Event) :
  markedForUPnP svc1 = true →
  markedForUPnP svc2 = true →
  desiredMappings svc1 lbIPs1 = [A; B] →
  desiredMappings svc2 lbIPs2 = [C] →
  SetBalancer c name lbIPs1 svc1 w = ((c1, None), w ++ evs1) →
  confirmedAdds evs1 = [addAction A; addAction B] →
  SetBalancer c1 name lbIPs2 svc2 (w ++ evs1) = ((c2, None), (w ++ evs1) ++ evs2) →
  confirmedAdds evs2 = [addAction C] →
  mappings c1 !! name = Some [A; B]
  ∧ mappings c2 !! name = Some [C]
  ∧ ∃ answerA answerB,
      evs2 = [deleteAction A answerA; deleteAction B answerB;
              EvAddPortMapping (addAction C) None;
              EvServiceEvent false "UPnPMappingCreated";
              EvStatusChange (Namespace svc2) (Name svc2)].
Proof.
  intros Hsvc1 Hsvc2 HAB HC Hrun1 Hadds1 Hrun2 Hadds2.
  (* the first call *)
  destruct (SetBalancer_stages c name lbIPs1 svc1 w Hsvc1)
    as (dels1 & created1 & cre1 & Hfirst & _ & _ & Hdel1 & Hsub1 & Hconf1).
  rewrite Hfirst in Hrun1. injection Hrun1 as Hc1 Hevs1.
  apply app_inv_head in Hevs1. subst evs1.
  rewrite !confirmedAdds_app, (confirmedAdds_deletions _ Hdel1) in Hadds1.
  assert (created1 = [A; B]) as ->.
  { rewrite HAB in Hsub1. apply sublist_same_length; [exact Hsub1|].
    rewrite <- (length_fmap addAction), Hconf1.
    destruct (0 <? length created1)%nat; simpl in Hadds1;
      rewrite ?app_nil_r in Hadds1; by rewrite Hadds1. }
  assert (mappings c1 !! name = Some [A; B]) as Hrecord.
  { rewrite <- Hc1. apply lookup_insert_eq. }
  assert (client c1 = client c) as Hclient by (by rewrite <- Hc1).
  assert (validProtocol (Protocol A) = true
          ∧ validProtocol (Protocol B) = true
          ∧ validProtocol (Protocol C) = true) as (HvA & HvB & HvC).
  { repeat split.
    - apply (desired_protocol svc1 lbIPs1). rewrite HAB. set_solver.
    - apply (desired_protocol svc1 lbIPs1). rewrite HAB. set_solver.
    - apply (desired_protocol svc2 lbIPs2). rewrite HC. set_solver. }
  split; [exact Hrecord|].
  (* the second call *)
  set (w1 := w ++ dels1 ++ cre1 ++ _) in *.
  destruct (SetBalancer_stages c1 name lbIPs2 svc2 w1 Hsvc2)
    as (dels2 & created2 & cre2 & Hsecond & Hdelete & Hcreate & Hdel2 & _ & _).
  rewrite Hsecond in Hrun2. injection Hrun2 as Hc2 Hevs2.
  apply app_inv_head in Hevs2. subst evs2.
  rewrite !confirmedAdds_app, (confirmedAdds_deletions _ Hdel2) in Hadds2.
  rewrite Hrecord in Hdelete. simpl in Hdelete.
  rewrite HC in Hcreate. simpl in Hcreate. unfold bind in Hcreate.
  rewrite (tryCreate_run c1 [] C _ HvC) in Hcreate.
  destruct (connection (client c1)) as [d|] eqn:Hconn.
  2:{ (* without a connection nothing is confirmed *)
      unfold ret in Hcreate. injection Hcreate as <- Hcre2.
      rewrite (app_assoc w1) in Hcre2. apply app_inv_head in Hcre2. subst cre2.
      discriminate Hadds2. }
  destruct (delete_loop_run c1 [A; B] w1) as (dels & Hdelete' & _ & Hexact).
  rewrite Hdelete in Hdelete'. injection Hdelete' as Hdels.
  apply app_inv_head in Hdels. subst dels.
  destruct (Hexact d Hconn) as (answers & Hzip & Hlen).
  { repeat constructor; assumption. }
  destruct answers as [|answerA [|answerB [|]]]; try discriminate Hlen.
  simpl in Hzip.
  destruct (DeviceAddPortMapping d (w1 ++ dels2) (addAction C)) as [e|].
  { unfold ret in Hcreate. injection Hcreate as <- Hcre2.
    rewrite (app_assoc w1) in Hcre2. apply app_inv_head in Hcre2. subst cre2.
    discriminate Hadds2. }
  unfold ret in Hcreate. injection Hcreate as <- Hcre2.
  rewrite (app_assoc w1) in Hcre2. apply app_inv_head in Hcre2. subst cre2.
  split.
  - rewrite <- Hc2. apply lookup_insert_eq.
  - exists answerA, answerB. rewrite Hzip. reflexivity.
Qed.

Lemma full_replace_witness :
  let c := controllerOf (obligingDevice "http://192.168.1.1/") in
  let run1 := SetBalancer c "default/web" ["192.168.1.240"] firstService [] in
  let run2 := SetBalancer (fst (fst run1)) "default/web" ["192.168.1.240"]
                          secondService (snd run1) in
  mappings (fst (fst run1)) !! "default/web"
    = Some [desiredAt firstService 0; desiredAt firstService 1]
  ∧ mappings (fst (fst run2)) !! "default/web"
    = Some [desiredAt secondService 0].
Proof.
  intros c run1 run2.
  destruct (full_replace c (fst (fst run1)) (fst (fst run2)) "default/web"
              ["192.168.1.240"] ["192.168.1.240"] firstService secondService
              (desiredAt firstService 0) (desiredAt firstService 1)
              (desiredAt secondService 0) []
              (snd run1) (drop (length (snd run1)) (snd run2)))
    as (Hfirst & Hsecond & _);
    [vm_compute; reflexivity .. | split; assumption].
Defined.

(** When the device rejects the creation of C, the second call still
    deletes A and B, and leaves the key on record with no mapping at all. *)
Lemma replace_with_rejected_creation :
  let d := {| Location := "http://192.168.1.1/";
              GetExternalIPAddress := λ _, inr "203.0.113.1";
              DeviceAddPortMapping := λ _ args,
                if NewExternalPort args =? 53
                then Some (SOAPFault 718 "ConflictInMappingEntry")
                else None;
              DeviceDeletePortMapping := λ _ _ _ _, None;
              GetGenericPortMappingEntry := λ _ _,
                inl (SOAPFault 713 "SpecifiedArrayIndexInvalid") |} in
  let run1 := SetBalancer (controllerOf d) "default/web" ["192.168.1.240"]
                          firstService [] in
  let run2 := SetBalancer (fst (fst run1)) "default/web" ["192.168.1.240"]
                          secondService (snd run1) in
  mappings (fst (fst run1)) !! "default/web"
    = Some [desiredAt firstService 0; desiredAt firstService 1]
  ∧ mappings (fst (fst run2)) !! "default/web" = Some []
  ∧ drop (length (snd run1)) (snd run2)
    = [deleteAction (desiredAt firstService 0) None;
       deleteAction (desiredAt firstService 1) None;
       EvAddPortMapping (addAction (desiredAt secondService 0))
                        (Some (SOAPFault 718 "ConflictInMappingEntry"));
       EvServiceEvent true "UPnPMappingFailed"].
Proof. vm_compute. repeat split. Qed.

(** ** The exchange sort of getEligibleNodes *)

Lemma ltb_le (a b : string) : String.ltb b a = true → String.le b a.
Proof.
  unfold String.ltb, String.le, String.leb.
  destruct (String.compare b a); simpl; try discriminate; done.
Qed.

Lemma not_ltb_le (a b : string) : String.ltb b a = false → String.le a b.
Proof.
  unfold String.ltb, String.le, String.leb.
  rewrite (String.compare_antisym a b).
  destruct (String.compare b a); simpl; try discriminate; done.
Qed.

Lemma length_swapIfGreater (i j : nat) (e : list string) :
  length (swapIfGreater i j e) = length e.
Proof.
  unfold swapIfGreater.
  destruct (e !! i), (e !! j); try reflexivity.
  destruct (String.ltb _ _); [|reflexivity].
  by rewrite !length_insert.
Qed.

Lemma elem_of_swapIfGreater (i j : nat) (e : list string) (x : string) :
  x ∈ swapIfGreater i j e ↔ x ∈ e.
Proof.
  unfold swapIfGreater.
  destruct (e !! i) as [a|] eqn:Hi; [|reflexivity].
  destruct (e !! j) as [b|] eqn:Hj; [|reflexivity].
  destruct (String.ltb b a); [|reflexivity].
  pose proof (lookup_lt_Some _ _ _ Hi) as Hli.
  pose proof (lookup_lt_Some _ _ _ Hj) as Hlj.
  rewrite !list_elem_of_lookup. split; intros [k Hk].
  - rewrite list_lookup_insert in Hk. case_decide as Hkj.
    { simplify_eq. eauto. }
    rewrite list_lookup_insert in Hk. case_decide as Hki.
    { simplify_eq. eauto. }
    eauto.
  - destruct (decide (k = i)) as [->|Hki].
    { exists j. rewrite list_lookup_insert_eq; [congruence|].
      by rewrite length_insert. }
    destruct (decide (k = j)) as [->|Hkj].
    { exists i. rewrite list_lookup_insert_ne by done.
      rewrite list_lookup_insert_eq by done. congruence. }
    exists k. by rewrite !list_lookup_insert_ne.
Qed.

Lemma swapIfGreater_keeps_head (i j : nat) (e : list string) :
  (1 ≤ i)%nat → (1 ≤ j)%nat → swapIfGreater i j e !! 0%nat = e !! 0%nat.
Proof.
  intros Hi Hj. unfold swapIfGreater.
  destruct (e !! i), (e !! j); try reflexivity.
  destruct (String.ltb _ _); [|reflexivity].
  rewrite !list_lookup_insert_ne by lia. reflexivity.
Qed.

(** The first pass of the outer loop, after its inner loop has compared
    position 0 with the positions 1 to [n]: position 0 holds a name that is
    not greater than any of them. *)
Lemma first_pass_invariant (e : list string) (n : nat) :
  length (foldl (λ e j, swapIfGreater 0 j e) e (seq 1 n)) = length e
  ∧ ∀ m k x,
      foldl (λ e j, swapIfGreater 0 j e) e (seq 1 n) !! 0%nat = Some m →
      (k ≤ n)%nat →
      foldl (λ e j, swapIfGreater 0 j e) e (seq 1 n) !! k = Some x →
      String.le m x.
Proof.
  induction n as [|n [IHlen IH]].
  { split; [reflexivity|]. simpl. intros m k x Hm Hk Hx.
    assert (k = 0%nat) as -> by lia. by simplify_eq. }
  rewrite seq_S, foldl_app. simpl.
  set (e' := foldl _ e (seq 1 n)) in *.
  split; [by rewrite length_swapIfGreater|].
  intros m k x. unfold swapIfGreater.
  destruct (e' !! 0%nat) as [a|] eqn:H0; [|intros; congruence].
  destruct (e' !! S n) as [b|] eqn:Hn.
  2:{ intros Hm Hk Hx. destruct (decide (k = S n)) as [->|]; [congruence|].
      apply (IH m k x); [congruence | lia | done]. }
  pose proof (lookup_lt_Some _ _ _ H0) as Hl0.
  pose proof (lookup_lt_Some _ _ _ Hn) as Hln.
  destruct (String.ltb b a) eqn:Hcmp.
  - (* exchanged: the smaller name [b] moves to the front *)
    rewrite list_lookup_insert_ne by lia.
    rewrite list_lookup_insert_eq by done.
    intros [= <-] Hk.
    destruct (decide (k = S n)) as [->|Hkn].
    { rewrite list_lookup_insert_eq by (by rewrite length_insert).
      intros [= <-]. by apply ltb_le. }
    rewrite list_lookup_insert_ne by done.
    destruct (decide (k = 0%nat)) as [->|Hk0].
    { rewrite list_lookup_insert_eq by done. by intros [= <-]. }
    rewrite list_lookup_insert_ne by done.
    intros Hx. trans a; [by apply ltb_le|].
    apply (IH a k x); [done | lia | done].
  - intros Hm Hk Hx. assert (m = a) as -> by congruence.
    destruct (decide (k = S n)) as [->|].
    { assert (x = b) as -> by congruence. by apply not_ltb_le. }
    apply (IH a k x); [done | lia | done].
Qed.

Lemma sortInner_elem_of (i : nat) (e : list string) (x : string) :
  x ∈ sortInner i e ↔ x ∈ e.
Proof.
  unfold sortInner. generalize (seq (S i) (length e - S i)) as js.
  intros js. revert e. induction js as [|j js IH]; intros e; simpl; [done|].
  by rewrite IH, elem_of_swapIfGreater.
Qed.

Lemma sortInner_keeps_head (i : nat) (e : list string) :
  (1 ≤ i)%nat → sortInner i e !! 0%nat = e !! 0%nat.
Proof.
  intros Hi. unfold sortInner.
  assert (Forall (λ j, 1 ≤ j)%nat (seq (S i) (length e - S i))) as Hjs.
  { apply Forall_forall. intros j Hj%elem_of_seq. lia. }
  revert Hjs. generalize (seq (S i) (length e - S i)) as js.
  intros js. revert e. induction js as [|j js IH]; intros e Hjs; simpl; [done|].
  apply Forall_cons in Hjs as [Hj Hjs].
  rewrite IH by done. by apply swapIfGreater_keeps_head.
Qed.

Lemma later_passes (passes : list nat) :
  Forall (λ i, 1 ≤ i)%nat passes →
  ∀ e, foldl (λ e i, sortInner i e) e passes !! 0%nat = e !! 0%nat
       ∧ ∀ x, x ∈ foldl (λ e i, sortInner i e) e passes ↔ x ∈ e.
Proof.
  induction 1 as [|i passes Hi _ IH]; intros e; simpl; [done|].
  destruct (IH (sortInner i e)) as [Hhead Helem]. split.
  - by rewrite Hhead, sortInner_keeps_head.
  - intros x. by rewrite Helem, sortInner_elem_of.
Qed.

Lemma sortEligible_elem_of (e : list string) (x : string) :
  x ∈ sortEligible e ↔ x ∈ e.
Proof.
  unfold sortEligible. generalize (seq 0 (length e - 1)) as passes.
  intros passes. revert e. induction passes as [|i passes IH]; intros e; simpl; [done|].
  by rewrite IH, sortInner_elem_of.
Qed.

(** After the sort the first name is a least one. *)
Lemma sortEligible_head_least (e : list string) (m : string) :
  head (sortEligible e) = Some m → ∀ x, x ∈ e → String.le m x.
Proof.
  rewrite head_lookup. unfold sortEligible.
  destruct (length e - 1)%nat as [|n] eqn:Hlen.
  { (* at most one name: the loop body never runs *)
    simpl. intros Hm x Hx. apply list_elem_of_lookup in Hx as [k Hk].
    pose proof (lookup_lt_Some _ _ _ Hk).
    assert (k = 0%nat) as -> by lia. by simplify_eq. }
  rewrite <- cons_seq. simpl.
  destruct (later_passes (seq 1 n)) with (e := sortInner 0 e) as [Hhead Helem].
  { apply Forall_forall. intros i Hi%elem_of_seq. lia. }
  rewrite Hhead. intros Hm x Hx.
  apply (sortInner_elem_of 0) in Hx. apply list_elem_of_lookup in Hx as [k Hk].
  unfold sortInner in *.
  destruct (first_pass_invariant e (length e - 1)) as [Hlen' Hleast].
  apply (Hleast m k x); [done | | done].
  apply lookup_lt_Some in Hk. lia.
Qed.

(** ** Election *)

Lemma collect_names (nodes : gmap string Node) (names : list string) :
  ∀ (acc : list string) (x : string),
    x ∈ foldl (λ eligible nodeName,
                 match nodes !! nodeName with
                 | Some node =>
                     if isNodeReady node
                        && negb (isNodeExcludedFromBalancers node)
                     then eligible ++ [nodeName]
                     else eligible
                 | None => eligible
                 end) acc names
    ↔ x ∈ acc ∨ (x ∈ names ∧ isCandidate nodes x = true).
Proof.
  induction names as [|name names IH]; intros acc x; simpl.
  { set_solver. }
  rewrite IH. unfold isCandidate at 2.
  destruct (nodes !! name) as [node|] eqn:Hnode.
  - destruct (isNodeReady node && negb (isNodeExcludedFromBalancers node))
      eqn:Hok.
    + rewrite elem_of_app, list_elem_of_singleton, elem_of_cons.
      split; [|naive_solver].
      intros [[?| ->]|?]; [naive_solver| |naive_solver].
      right. split; [by left|]. unfold isCandidate. by rewrite Hnode.
    + rewrite elem_of_cons. split; [naive_solver|].
      intros [?|[[->|?] Hx]]; [naive_solver| |naive_solver].
      unfold isCandidate in Hx. rewrite Hnode in Hx. congruence.
  - rewrite elem_of_cons. split; [naive_solver|].
    intros [?|[[->|?] Hx]]; [naive_solver| |naive_solver].
    unfold isCandidate in Hx. rewrite Hnode in Hx. congruence.
Qed.

Lemma candidates_spec (pool : Pool) (nodes : gmap string Node) (x : string) :
  x ∈ candidates pool nodes
  ↔ ∃ adv, adv ∈ UPnPAdvertisements pool ∧ Enabled adv = true
           ∧ x ∈ Nodes adv ∧ isCandidate nodes x = true.
Proof.
  unfold candidates. rewrite elem_of_union_list. split.
  - intros (X & HX & Hx). apply list_elem_of_fmap in HX as (adv & -> & Hadv).
    exists adv. destruct (Enabled adv); [|set_solver].
    apply elem_of_filter in Hx. naive_solver.
  - intros (adv & Hadv & Hen & Hx & Hc).
    eexists. split; [apply list_elem_of_fmap; eauto|].
    simpl. rewrite Hen. apply elem_of_filter. done.
Qed.

Section ElectionFacts.

Variable EndpointSlice : Type.
Variable activeEndpointExists : list EndpointSlice → bool.
Variable rangeOrder : gset string → list string.
Hypothesis rangeOrder_perm : ∀ s, rangeOrder s ≡ₚ elements s.

Lemma elem_of_rangeOrder (s : gset string) (x : string) :
  x ∈ rangeOrder s ↔ x ∈ s.
Proof. rewrite (rangeOrder_perm s). apply elem_of_elements. Qed.

Lemma eligible_are_candidates (pool : Pool) (nodes : gmap string Node)
    (x : string) :
  x ∈ getEligibleNodes rangeOrder pool nodes ↔ x ∈ candidates pool nodes.
Proof.
  unfold getEligibleNodes. rewrite sortEligible_elem_of, candidates_spec.
  match goal with
  | |- _ ∈ foldl ?f [] ?advs ↔ _ =>
      enough (∀ acc, x ∈ foldl f acc advs
                     ↔ x ∈ acc ∨ ∃ adv, adv ∈ advs ∧ Enabled adv = true
                                        ∧ x ∈ Nodes adv
                                        ∧ isCandidate nodes x = true) as H
  end.
  { rewrite H. set_solver. }
  induction (UPnPAdvertisements pool) as [|adv advs IH]; intros acc; simpl.
  { set_solver. }
  rewrite IH. destruct (Enabled adv) eqn:Hen; simpl.
  - rewrite collect_names, elem_of_rangeOrder. set_solver.
  - split; [set_solver|].
    intros [?|(adv' & [->|?]%elem_of_cons & Hen' & ?)];
      [by left | congruence | right; eauto].
Qed.

(** C2.  Election.  The owner that ShouldAnnounce compares the local node
    with is the first of the eligible names after the sort.  There is none
    exactly when the candidate set of the pool is empty; otherwise it is a
    candidate and no candidate is smaller, in whatever order Go enumerates
    the allowed nodes of the advertisements.  ShouldAnnounce answers
    "owner" (the empty string) exactly when the local node is this owner,
    for a service that is marked for UPnP and has an active endpoint. *)
Theorem elected_owner_is_least_candidate (c : upnpController) (pool : Pool)
    (svc : Service) (eps : list EndpointSlice) (nodes : gmap string Node) :
  (electedOwner rangeOrder pool nodes = None ↔ candidates pool nodes = ∅)
  ∧ (∀ owner, electedOwner rangeOrder pool nodes = Some owner →
       owner ∈ candidates pool nodes
       ∧ ∀ name, name ∈ candidates pool nodes → String.le owner name)
  ∧ (ShouldAnnounce EndpointSlice activeEndpointExists rangeOrder c pool svc eps
                     nodes = EmptyString
     ↔ markedForUPnP svc = true
       ∧ activeEndpointExists eps = true
       ∧ electedOwner rangeOrder pool nodes = Some (myNode c)).
Proof.
  assert (∀ owner, electedOwner rangeOrder pool nodes = Some owner →
            owner ∈ candidates pool nodes
            ∧ ∀ name, name ∈ candidates pool nodes → String.le owner name)
    as Hleast.
  { unfold electedOwner. intros owner Hhead. split.
    - apply eligible_are_candidates. by apply head_Some_elem_of.
    - intros name Hname. unfold getEligibleNodes in Hhead.
      apply (sortEligible_head_least _ _ Hhead).
      apply sortEligible_elem_of.
      by apply (eligible_are_candidates pool nodes). }
  split; [|split; [exact Hleast|]].
  - unfold electedOwner. rewrite head_None. split.
    + intros Hnil. apply set_eq. intros x.
      rewrite <- eligible_are_candidates, Hnil. set_solver.
    + intros Hempty.
      destruct (getEligibleNodes rangeOrder pool nodes) as [|x l] eqn:Hl;
        [done|].
      assert (x ∈ candidates pool nodes) as Hx.
      { apply eligible_are_candidates. rewrite Hl. by left. }
      set_solver.
  - unfold ShouldAnnounce. rewrite markedForUPnP_enabled.
    split.
    + destruct (markedForUPnP svc); [|discriminate]. simpl.
      destruct (poolSupportsUPnP pool); [|discriminate]. simpl.
      destruct (activeEndpointExists eps); [|discriminate]. simpl.
      destruct (nodeMatchesUPnPAdvertisements c pool); [|discriminate]. simpl.
      unfold electedOwner.
      destruct (getEligibleNodes rangeOrder pool nodes) as [|first rest];
        [discriminate|].
      destruct (String.eqb_spec first (myNode c)) as [->|]; [done|discriminate].
    + intros (-> & -> & Howner). simpl.
      destruct (Hleast _ Howner) as [Hcand _].
      apply candidates_spec in Hcand as (adv & Hadv & Hen & Hmine & _).
      assert (poolSupportsUPnP pool = true) as ->.
      { unfold poolSupportsUPnP.
        destruct (UPnPAdvertisements pool); [by apply elem_of_nil in Hadv|done]. }
      assert (nodeMatchesUPnPAdvertisements c pool = true) as ->.
      { unfold nodeMatchesUPnPAdvertisements. apply existsb_exists.
        exists adv. split; [by apply list_elem_of_In|].
        rewrite Hen. simpl. by apply bool_decide_eq_true. }
      simpl. unfold electedOwner in Howner.
      destruct (getEligibleNodes rangeOrder pool nodes) as [|first rest];
        [discriminate|].
      simpl in Howner. injection Howner as ->.
      by rewrite String.eqb_refl.
Qed.

End ElectionFacts.

Lemma elected_owner_is_least_candidate_witness :
  (∀ s : gset string, elements s ≡ₚ elements s)
  ∧ (electedOwner elements samplePool sampleNodes = None
     ↔ candidates samplePool sampleNodes = ∅)
  ∧ (∀ owner, electedOwner elements samplePool sampleNodes = Some owner →
       owner ∈ candidates samplePool sampleNodes
       ∧ ∀ name, name ∈ candidates samplePool sampleNodes →
                 String.le owner name)
  ∧ (ShouldAnnounce unit (λ _, true) elements
       (controllerOf (obligingDevice "http://192.168.1.1/")) samplePool
       firstService [] sampleNodes = EmptyString
     ↔ markedForUPnP firstService = true
       ∧ true = true
       ∧ electedOwner elements samplePool sampleNodes = Some "node-a").
Proof.
  split; [intros s; reflexivity|].
  apply (elected_owner_is_least_candidate unit (λ _, true) elements
           (λ s, reflexivity (elements s))
           (controllerOf (obligingDevice "http://192.168.1.1/")) samplePool
           firstService [] sampleNodes).
Defined.

(** Election under churn: of the candidates a, b and c the node a is
    elected (d is allowed but not in the snapshot, 0 is allowed by a
    disabled advertisement only); when a is no longer ready, b is. *)
Lemma election_under_churn :
  let notReady := {| Labels := ∅;
                     Conditions := [ {| ConditionType := "Ready";
                                        ConditionStatus := "False" |} ] |} in
  candidates samplePool sampleNodes = {[ "node-a"; "node-b"; "node-c" ]}
  ∧ electedOwner elements samplePool sampleNodes = Some "node-a"
  ∧ electedOwner (λ s, reverse (elements s)) samplePool sampleNodes
    = Some "node-a"
  ∧ electedOwner elements samplePool (<[ "node-a" := notReady ]> sampleNodes)
    = Some "node-b".
Proof. vm_compute. repeat split. Qed.

(** ** The exchange sort, in full *)

Lemma exchange_later (e : list string) (j : nat) (a b : string) :
  e !! j = Some b → b :: <[j:=a]> e ≡ₚ a :: e.
Proof.
  revert j. induction e as [|x e IH]; intros [|j] Hj; simplify_eq/=.
  - apply perm_swap.
  - rewrite (perm_swap x b), (IH j Hj). apply perm_swap.
Qed.

Lemma exchange_perm (e : list string) (i j : nat) (a b : string) :
  (i < j)%nat → e !! i = Some a → e !! j = Some b →
  <[j:=a]> (<[i:=b]> e) ≡ₚ e.
Proof.
  revert i j. induction e as [|x e IH]; intros [|i] [|j] Hij Hi Hj;
    simplify_eq/=; try lia.
  - by apply exchange_later.
  - f_equiv. apply IH; [lia | done | done].
Qed.

Lemma swapIfGreater_perm (i j : nat) (e : list string) :
  (i < j)%nat → swapIfGreater i j e ≡ₚ e.
Proof.
  intros Hij. unfold swapIfGreater.
  destruct (e !! i) as [a|] eqn:Hi; [|done].
  destruct (e !! j) as [b|] eqn:Hj; [|done].
  destruct (String.ltb b a); [|done].
  by apply exchange_perm.
Qed.

Lemma sortInner_perm (i : nat) (e : list string) : sortInner i e ≡ₚ e.
Proof.
  unfold sortInner.
  assert (Forall (λ j, i < j)%nat (seq (S i) (length e - S i))) as Hjs.
  { apply Forall_forall. intros j Hj%elem_of_seq. lia. }
  revert Hjs. generalize (seq (S i) (length e - S i)) as js.
  intros js. revert e. induction js as [|j js IH]; intros e Hjs; simpl; [done|].
  apply Forall_cons in Hjs as [Hj Hjs].
  rewrite IH by done. by apply swapIfGreater_perm.
Qed.

Lemma sortEligible_perm (e : list string) : sortEligible e ≡ₚ e.
Proof.
  unfold sortEligible. generalize (seq 0 (length e - 1)) as passes.
  intros passes. revert e.
  induction passes as [|i passes IH]; intros e; simpl; [done|].
  by rewrite IH, sortInner_perm.
Qed.

(** One comparison of the inner loop, position by position. *)
Lemma swapIfGreater_lookup (i j : nat) (e : list string) (a b : string) :
  i ≠ j → e !! i = Some a → e !! j = Some b →
  swapIfGreater i j e !! i = Some (if String.ltb b a then b else a)
  ∧ swapIfGreater i j e !! j = Some (if String.ltb b a then a else b)
  ∧ ∀ p, p ≠ i → p ≠ j → swapIfGreater i j e !! p = e !! p.
Proof.
  intros Hij Hi Hj. unfold swapIfGreater. rewrite Hi, Hj.
  pose proof (lookup_lt_Some _ _ _ Hi). pose proof (lookup_lt_Some _ _ _ Hj).
  destruct (String.ltb b a); [|done].
  split; [|split].
  - rewrite list_lookup_insert_ne by done. by rewrite list_lookup_insert_eq.
  - rewrite list_lookup_insert_eq; [done|]. by rewrite length_insert.
  - intros p Hpi Hpj. by rewrite !list_lookup_insert_ne.
Qed.

Lemma swapIfGreater_missing (i j : nat) (e : list string) :
  e !! i = None ∨ e !! j = None → swapIfGreater i j e = e.
Proof.
  unfold swapIfGreater. intros [-> | Hj]; [done|].
  rewrite Hj. by destruct (e !! i).
Qed.

(** The inner loop at position [i], after it has compared position [i]
    with the [n] positions that follow it. *)
Lemma inner_pass_invariant (i : nat) (e : list string) (n : nat) :
  length (foldl (λ e j, swapIfGreater i j e) e (seq (S i) n)) = length e
  ∧ (∀ p, (p < i)%nat →
          foldl (λ e j, swapIfGreater i j e) e (seq (S i) n) !! p = e !! p)
  ∧ (∀ q y, (i ≤ q)%nat →
            foldl (λ e j, swapIfGreater i j e) e (seq (S i) n) !! q = Some y →
            ∃ q', (i ≤ q')%nat ∧ e !! q' = Some y)
  ∧ (∀ m k x,
       foldl (λ e j, swapIfGreater i j e) e (seq (S i) n) !! i = Some m →
       (i ≤ k ≤ i + n)%nat →
       foldl (λ e j, swapIfGreater i j e) e (seq (S i) n) !! k = Some x →
       String.le m x).
Proof.
  induction n as [|n (IHlen & IHlow & IHhigh & IHleast)].
  { simpl. repeat split; [eauto..|].
    intros m k x Hm Hk Hx. assert (k = i) as -> by lia. by simplify_eq. }
  rewrite seq_S, foldl_app. simpl.
  set (e' := foldl _ e (seq (S i) n)) in *.
  set (j := (S (i + n))%nat).
  destruct (e' !! i) as [a|] eqn:Hi.
  2:{ rewrite swapIfGreater_missing by auto. repeat split; [done..|].
      intros; congruence. }
  destruct (e' !! j) as [b|] eqn:Hj.
  2:{ rewrite swapIfGreater_missing by auto. repeat split; [done..|].
      intros m k x Hm Hk Hx. destruct (decide (k = j)) as [->|]; [congruence|].
      apply (IHleast m k x); [congruence | lia | done]. }
  destruct (swapIfGreater_lookup i j e' a b) as (Hnewi & Hnewj & Hother);
    [lia | done | done |].
  split; [by rewrite length_swapIfGreater|]. split; [|split].
  - intros p Hp. rewrite Hother by lia. by apply IHlow.
  - intros q y Hq Hy.
    destruct (decide (q = i)) as [->|Hqi].
    { rewrite Hnewi in Hy. apply (IHhigh (if String.ltb b a then j else i));
        [destruct (String.ltb b a); lia|].
      destruct (String.ltb b a); congruence. }
    destruct (decide (q = j)) as [->|Hqj].
    { rewrite Hnewj in Hy. apply (IHhigh (if String.ltb b a then i else j));
        [destruct (String.ltb b a); lia|].
      destruct (String.ltb b a); congruence. }
    rewrite Hother in Hy by done. by apply (IHhigh q).
  - intros m k x Hm Hk Hx. rewrite Hnewi in Hm.
    destruct (decide (k = i)) as [->|Hki].
    { assert (m = x) as -> by congruence. done. }
    destruct (decide (k = j)) as [->|Hkj].
    + rewrite Hnewj in Hx.
      destruct (String.ltb b a) eqn:Hcmp; simplify_eq.
      * by apply ltb_le.
      * by apply not_ltb_le.
    + rewrite Hother in Hx by done.
      assert (String.le a x) as Hax.
      { apply (IHleast a k x); [done | lia | done]. }
      destruct (String.ltb b a) eqn:Hcmp; simplify_eq; [|done].
      trans a; [by apply ltb_le | done].
Qed.

(** The outer loop after [t] passes: a name at one of the first [t]
    positions is not greater than any name behind it. *)
Lemma outer_passes_invariant (e : list string) (t : nat) :
  length (foldl (λ e i, sortInner i e) e (seq 0 t)) = length e
  ∧ ∀ p q x y, (p < t)%nat → (p < q)%nat →
      foldl (λ e i, sortInner i e) e (seq 0 t) !! p = Some x →
      foldl (λ e i, sortInner i e) e (seq 0 t) !! q = Some y →
      String.le x y.
Proof.
  induction t as [|t [IHlen IH]].
  { split; [done|]. intros; lia. }
  rewrite seq_S, foldl_app. simpl.
  set (e' := foldl _ e (seq 0 t)) in *.
  unfold sortInner.
  destruct (inner_pass_invariant t e' (length e' - S t))
    as (Hlen & Hlow & Hhigh & Hleast).
  split; [congruence|].
  intros p q x y Hp Hpq Hx Hy.
  destruct (decide (p = t)) as [->|Hpt].
  - apply (Hleast x q y); [done | | done].
    apply lookup_lt_Some in Hy. rewrite Hlen in Hy. lia.
  - rewrite Hlow in Hx by lia.
    destruct (decide (q < t)%nat) as [Hqt|Hqt].
    + rewrite Hlow in Hy by done. apply (IH p q); [lia | done..].
    + destruct (Hhigh q y) as (q' & Hq' & Hy'); [lia | done |].
      apply (IH p q'); [lia | lia | done..].
Qed.

Lemma ordered_pairs_sorted (l : list string) :
  (∀ p q x y, (p < q)%nat → l !! p = Some x → l !! q = Some y → String.le x y) →
  StronglySorted String.le l.
Proof.
  induction l as [|a l IH]; intros Hpairs; constructor.
  - apply IH. intros p q x y Hpq Hx Hy. apply (Hpairs (S p) (S q)); [lia|done..].
  - apply Forall_lookup. intros q y Hy. apply (Hpairs 0%nat (S q)); [lia|done..].
Qed.

Lemma sortEligible_sorted (eligible : list string) :
  StronglySorted String.le (sortEligible eligible).
Proof.
  apply ordered_pairs_sorted. intros p q x y Hpq Hx Hy.
  unfold sortEligible in *.
  destruct (outer_passes_invariant eligible (length eligible - 1)) as [Hlen Hsorted].
  apply (Hsorted p q x y); [|done..].
  apply lookup_lt_Some in Hy. rewrite Hlen in Hy. lia.
Qed.

(** X1.  The two nested loops of getEligibleNodes sort: their result is a
    rearrangement of the names that went in, duplicates included, and it is
    in ascending bytewise order. *)
Theorem exchange_sort_sorts (eligible : list string) :
  sortEligible eligible ≡ₚ eligible
  ∧ StronglySorted String.le (sortEligible eligible).
Proof. split; [apply sortEligible_perm | apply sortEligible_sorted]. Qed.

(** ** Election across nodes *)

Lemma collect_names_filter (nodes : gmap string Node) (names : list string) :
  ∀ acc : list string,
    foldl (λ eligible nodeName,
             match nodes !! nodeName with
             | Some node =>
                 if isNodeReady node
                    && negb (isNodeExcludedFromBalancers node)
                 then eligible ++ [nodeName]
                 else eligible
             | None => eligible
             end) acc names
    = acc ++ filter (λ name, isCandidate nodes name = true) names.
Proof.
  induction names as [|name names IH]; intros acc; simpl.
  { by rewrite app_nil_r. }
  rewrite IH. unfold isCandidate at 2.
  destruct (nodes !! name) as [node|] eqn:Hnode.
  - destruct (isNodeReady node && negb (isNodeExcludedFromBalancers node))
      eqn:Hok.
    + rewrite filter_cons_True by (unfold isCandidate; by rewrite Hnode).
      by rewrite <- app_assoc.
    + rewrite filter_cons_False; [done|].
      unfold isCandidate. rewrite Hnode. congruence.
  - rewrite filter_cons_False; [done|].
    unfold isCandidate. by rewrite Hnode.
Qed.

Lemma eligible_before_sort (r1 r2 : gset string → list string)
    (nodes : gmap string Node) (advs : list UPnPAdvertisement) :
  (∀ s, r1 s ≡ₚ elements s) → (∀ s, r2 s ≡ₚ elements s) →
  ∀ acc1 acc2, acc1 ≡ₚ acc2 →
    foldl (λ eligible adv,
             if negb (Enabled adv) then eligible
             else
               foldl (λ eligible nodeName,
                        match nodes !! nodeName with
                        | Some node =>
                            if isNodeReady node
                               && negb (isNodeExcludedFromBalancers node)
                            then eligible ++ [nodeName]
                            else eligible
                        | None => eligible
                        end)
                     eligible (r1 (Nodes adv))) acc1 advs
    ≡ₚ
    foldl (λ eligible adv,
             if negb (Enabled adv) then eligible
             else
               foldl (λ eligible nodeName,
                        match nodes !! nodeName with
                        | Some node =>
                            if isNodeReady node
                               && negb (isNodeExcludedFromBalancers node)
                            then eligible ++ [nodeName]
                            else eligible
                        | None => eligible
                        end)
                     eligible (r2 (Nodes adv))) acc2 advs.
Proof.
  intros H1 H2. induction advs as [|adv advs IH]; intros acc1 acc2 Hacc; simpl.
  { done. }
  apply IH. destruct (Enabled adv); simpl; [|done].
  rewrite !collect_names_filter, Hacc, (H1 (Nodes adv)), (H2 (Nodes adv)).
  done.
Qed.

(** X2.  The list of eligible nodes does not depend on the order in which
    Go enumerates the allowed nodes of an advertisement: every node of the
    cluster computes the same list from the same pool and snapshot. *)
Theorem eligible_nodes_do_not_depend_on_map_order
    (r1 r2 : gset string → list string) (pool : Pool)
    (nodes : gmap string Node) :
  (∀ s, r1 s ≡ₚ elements s) →
  (∀ s, r2 s ≡ₚ elements s) →
  getEligibleNodes r1 pool nodes = getEligibleNodes r2 pool nodes.
Proof.
  intros H1 H2. unfold getEligibleNodes.
  apply (StronglySorted_unique String.le);
    [apply sortEligible_sorted | apply sortEligible_sorted |].
  rewrite !sortEligible_perm.
  by apply eligible_before_sort.
Qed.

Lemma eligible_nodes_do_not_depend_on_map_order_witness :
  getEligibleNodes elements samplePool sampleNodes
  = getEligibleNodes (λ s, reverse (elements s)) samplePool sampleNodes.
Proof.
  apply eligible_nodes_do_not_depend_on_map_order.
  - intros s. reflexivity.
  - intros s. apply reverse_Permutation.
Defined.

Lemma first_eligible_is_least (rangeOrder : gset string → list string)
    (pool : Pool) (nodes : gmap string Node) (owner : string) :
  (∀ s, rangeOrder s ≡ₚ elements s) →
  head (getEligibleNodes rangeOrder pool nodes) = Some owner →
  owner ∈ candidates pool nodes
  ∧ ∀ name, name ∈ candidates pool nodes → String.le owner name.
Proof.
  intros Hperm Hhead. split.
  - apply (eligible_are_candidates rangeOrder Hperm).
    by apply head_Some_elem_of.
  - intros name Hname. unfold getEligibleNodes in Hhead.
    apply (sortEligible_head_least _ _ Hhead).
    apply sortEligible_elem_of.
    by apply (eligible_are_candidates rangeOrder Hperm pool nodes).
Qed.

(** What the verdict "owner" of ShouldAnnounce rests on, gate by gate. *)
Lemma ShouldAnnounce_owner (EndpointSlice : Type)
    (activeEndpointExists : list EndpointSlice → bool)
    (rangeOrder : gset string → list string) (c : upnpController)
    (pool : Pool) (svc : Service) (eps : list EndpointSlice)
    (nodes : gmap string Node) :
  ShouldAnnounce EndpointSlice activeEndpointExists rangeOrder c pool svc eps
                 nodes = EmptyString →
  isUPnPEnabled svc = true
  ∧ poolSupportsUPnP pool = true
  ∧ activeEndpointExists eps = true
  ∧ nodeMatchesUPnPAdvertisements c pool = true
  ∧ head (getEligibleNodes rangeOrder pool nodes) = Some (myNode c).
Proof.
  unfold ShouldAnnounce.
  destruct (isUPnPEnabled svc); [|discriminate]. simpl.
  destruct (poolSupportsUPnP pool); [|discriminate]. simpl.
  destruct (activeEndpointExists eps); [|discriminate]. simpl.
  destruct (nodeMatchesUPnPAdvertisements c pool); [|discriminate]. simpl.
  destruct (getEligibleNodes rangeOrder pool nodes) as [|first rest];
    [discriminate|].
  destruct (String.eqb_spec first (myNode c)) as [->|]; [done|discriminate].
Qed.

(** X3.  At most one owner.  Two speakers that look at the same pool and
    the same node snapshot cannot both answer "owner" unless they run on the
    same node, whatever service and endpoints each of them is asked about
    and in whatever order each of them enumerates the allowed nodes. *)
Theorem at_most_one_owner (EndpointSlice : Type)
    (active1 active2 : list EndpointSlice → bool)
    (r1 r2 : gset string → list string) (c1 c2 : upnpController)
    (pool : Pool) (svc1 svc2 : Service) (eps1 eps2 : list EndpointSlice)
    (nodes : gmap string Node) :
  (∀ s, r1 s ≡ₚ elements s) →
  (∀ s, r2 s ≡ₚ elements s) →
  ShouldAnnounce EndpointSlice active1 r1 c1 pool svc1 eps1 nodes
    = EmptyString →
  ShouldAnnounce EndpointSlice active2 r2 c2 pool svc2 eps2 nodes
    = EmptyString →
  myNode c1 = myNode c2.
Proof.
  intros H1 H2 Hown1 Hown2.
  apply ShouldAnnounce_owner in Hown1 as (_ & _ & _ & _ & Hhead1).
  apply ShouldAnnounce_owner in Hown2 as (_ & _ & _ & _ & Hhead2).
  destruct (first_eligible_is_least r1 pool nodes _ H1 Hhead1) as [Hin1 Hle1].
  destruct (first_eligible_is_least r2 pool nodes _ H2 Hhead2) as [Hin2 Hle2].
  apply (anti_symm String.le); auto.
Qed.

Lemma at_most_one_owner_witness :
  myNode (controllerOf (obligingDevice "http://192.168.1.1/"))
  = myNode (recordingController (obligingDevice "http://192.168.1.1/")
                                "default/web").
Proof.
  apply (at_most_one_owner unit (λ _, true) (λ _, true)
           elements (λ s, reverse (elements s))
           (controllerOf (obligingDevice "http://192.168.1.1/"))
           (recordingController (obligingDevice "http://192.168.1.1/")
                                "default/web")
           samplePool firstService secondService [] [] sampleNodes).
  - intros s. reflexivity.
  - intros s. apply reverse_Permutation.
  - vm_compute. reflexivity.
  - vm_compute. reflexivity.
Defined.

(** X4.  Who can be owner.  When ShouldAnnounce answers "owner", the
    service is marked for UPnP and has an active endpoint, an enabled
    advertisement of the pool allows the local node, and the local node is
    in the snapshot, ready, and does not carry the label that excludes it
    from external load balancers. *)
Theorem owner_is_an_allowed_ready_node (EndpointSlice : Type)
    (activeEndpointExists : list EndpointSlice → bool)
    (rangeOrder : gset string → list string) (c : upnpController)
    (pool : Pool) (svc : Service) (eps : list EndpointSlice)
    (nodes : gmap string Node) :
  (∀ s, rangeOrder s ≡ₚ elements s) →
  ShouldAnnounce EndpointSlice activeEndpointExists rangeOrder c pool svc eps
                 nodes = EmptyString →
  markedForUPnP svc = true
  ∧ activeEndpointExists eps = true
  ∧ (∃ adv, adv ∈ UPnPAdvertisements pool ∧ Enabled adv = true
            ∧ myNode c ∈ Nodes adv)
  ∧ ∃ node, nodes !! myNode c = Some node
            ∧ isNodeReady node = true
            ∧ Labels node
                !! "node.kubernetes.io/exclude-from-external-load-balancers"
              = None.
Proof.
  intros Hperm Hown.
  apply ShouldAnnounce_owner in Hown as (Hsvc & _ & Heps & _ & Hhead).
  rewrite markedForUPnP_enabled in Hsvc.
  destruct (first_eligible_is_least rangeOrder pool nodes _ Hperm Hhead)
    as [Hcand _].
  apply candidates_spec in Hcand as (adv & Hadv & Hen & Hmine & Hready).
  split; [done|]. split; [done|]. split; [eauto|].
  unfold isCandidate in Hready.
  destruct (nodes !! myNode c) as [node|]; [|discriminate].
  exists node. apply andb_true_iff in Hready as [Hready Hexcl].
  split; [done|]. split; [done|].
  unfold isNodeExcludedFromBalancers in Hexcl.
  apply negb_true_iff, bool_decide_eq_false in Hexcl.
  by apply eq_None_not_Some.
Qed.

Lemma owner_is_an_allowed_ready_node_witness :
  markedForUPnP firstService = true
  ∧ true = true
  ∧ (∃ adv, adv ∈ UPnPAdvertisements samplePool ∧ Enabled adv = true
            ∧ "node-a" ∈ Nodes adv)
  ∧ ∃ node, sampleNodes !! "node-a" = Some node
            ∧ isNodeReady node = true
            ∧ Labels node
                !! "node.kubernetes.io/exclude-from-external-load-balancers"
              = None.
Proof.
  apply (owner_is_an_allowed_ready_node unit (λ _, true) elements
           (controllerOf (obligingDevice "http://192.168.1.1/"))
           samplePool firstService [] sampleNodes).
  - intros s. reflexivity.
  - vm_compute. reflexivity.
Defined.

(** ** More on the protocol client *)

Lemma GetPortMappings_loop_content (ParseIP : string → option IP)
    (c : IGDClient) (fuel : nat) :
  ∀ (index : Z) (found : list PortMapping) (w : World),
    ∃ evs,
      snd (GetPortMappings_loop ParseIP fuel c index found w) = w ++ evs
      ∧ ∀ result,
          fst (GetPortMappings_loop ParseIP fuel c index found w)
          = Some (inr result) →
          result = found ++ omap (keptMapping ParseIP) (entriesAnswered evs).
Proof.
  induction fuel as [|fuel IH]; intros index found w.
  { exists []. rewrite app_nil_r. split; [done|]. intros; discriminate. }
  simpl. destruct (connection c) as [d|].
  2:{ exists []. rewrite app_nil_r. split; [done|]. intros; discriminate. }
  unfold bind at 1 2. unfold callGetEntry at 1 2.
  destruct (GetGenericPortMappingEntry d w (uint16 index)) as [err|e].
  - eexists [_]. split.
    { destruct (_ || _); reflexivity. }
    intros result. destruct (_ || _); simpl; [|discriminate].
    intros [= <-]. by rewrite app_nil_r.
  - assert (found ++ omap (keptMapping ParseIP) [e]
            = if EntryEnabled e
              then match ParseIP (EntryInternalClient e) with
                   | Some ip =>
                       found ++
                       [{| ExternalPort := EntryExternalPort e;
                           InternalPort := EntryInternalPort e;
                           InternalIP := ip;
                           Protocol := EntryProtocol e;
                           Description := EntryDescription e;
                           Duration := EntryLeaseDuration e |}]
                   | None => found
                   end
              else found) as Hkept.
    { simpl. unfold keptMapping.
      destruct (EntryEnabled e); [|by rewrite app_nil_r].
      destruct (ParseIP (EntryInternalClient e)); [done|by rewrite app_nil_r]. }
    rewrite <- Hkept.
    destruct (index + 1 >? 1000).
    + eexists [_]. split; [reflexivity|]. by intros result [= <-].
    + destruct (IH (index + 1) (found ++ omap (keptMapping ParseIP) [e])
                   (w ++ [EvGetGenericPortMappingEntry (uint16 index) (inr e)]))
        as (evs & Hlog & Hresult).
      exists (EvGetGenericPortMappingEntry (uint16 index) (inr e) :: evs).
      split.
      * rewrite Hlog, <- app_assoc. reflexivity.
      * intros result Hrun. rewrite (Hresult result Hrun).
        simpl. rewrite <- app_assoc. by destruct (keptMapping ParseIP e).
Qed.

(** X5.  What enumeration returns.  When GetPortMappings returns a list,
    it is made of the entries the device answered with during this call, in
    the device's order, leaving out the disabled ones and those whose
    internal client does not parse as an address, with nothing added. *)
Theorem enumeration_returns_the_enabled_entries
    (ParseIP : string → option IP) (c : IGDClient) (fuel : nat) (w : World) :
  ∃ evs,
    snd (GetPortMappings ParseIP fuel c w) = w ++ evs
    ∧ ∀ result,
        fst (GetPortMappings ParseIP fuel c w) = Some (inr result) →
        result = omap (keptMapping ParseIP) (entriesAnswered evs).
Proof. apply GetPortMappings_loop_content. Qed.

(** The table of three entries, the second disabled: two mappings come
    back, after four queries. *)
Lemma enumeration_of_short_table :
  let run := GetPortMappings Some 2000 (clientOf shortTable) [] in
  fmap ExternalPort <$> (fst run ≫= λ r, match r with
                                           | inr l => Some l
                                           | inl _ => None
                                           end)
  = Some [8080; 8082]
  ∧ entryQueries (snd run) = [0; 1; 2; 3].
Proof. vm_compute. split; reflexivity. Qed.

Lemma IsAvailable_connection (c : IGDClient) :
  IsAvailable c = bool_decide (is_Some (connection c)).
Proof.
  unfold IsAvailable, connection.
  destruct (version c =? 2), (version c =? 1), (client1 c), (client2 c);
    reflexivity.
Qed.

Lemma New_run (ParseIP : string → option IP)
    (net : Network) (w : World) :
  match firstAnswer net with
  | Some (_, d) =>
      ∃ c, New ParseIP net w
           = (inr c, w ++ [EvGetExternalIPAddress (GetExternalIPAddress d w)])
           ∧ IsAvailable c = true
           ∧ GetExternalIP c = match GetExternalIPAddress d w with
                               | inr text => ParseIP text
                               | inl _ => None
                               end
  | None => ∃ e, New ParseIP net w = (inl e, w)
  end.
Proof.
  unfold firstAnswer, New, discoverIGD2, discoverIGD1.
  destruct (IGD2Clients net) as [[|d2 l2] [e2|]];
    destruct (IGD1Clients net) as [[|d1 l1] [e1|]]; simpl;
    try (eexists; reflexivity);
    unfold bind, updateExternalIP, connection; simpl;
    unfold bind, callGetExternalIP;
    match goal with
    | |- context [GetExternalIPAddress ?d w] =>
        destruct (GetExternalIPAddress d w) as [e|text]; simpl;
        [|destruct (ParseIP text) eqn:Hparse; simpl];
        eexists; (split; [reflexivity|]); split; try reflexivity;
        simpl; congruence
    end.
Qed.

(** X6.  Discovery and the external address.  When a device answers,
    construction of the client succeeds whatever the device says about its
    external address: exactly one address query is sent, the client is
    available, and its cache holds the parsed answer, or nothing when the
    query failed or the answer is not an address.  When no device answers,
    construction fails and nothing was sent. *)
Theorem discovery_resolves_the_address (ParseIP : string → option IP)
    (net : Network) (w : World) :
  match firstAnswer net with
  | Some (_, d) =>
      ∃ c, New ParseIP net w
           = (inr c, w ++ [EvGetExternalIPAddress (GetExternalIPAddress d w)])
           ∧ IsAvailable c = true
           ∧ GetExternalIP c = match GetExternalIPAddress d w with
                               | inr text => ParseIP text
                               | inl _ => None
                               end
  | None => ∃ e, New ParseIP net w = (inl e, w)
  end.
Proof. apply New_run. Qed.

(** X7.  A client without a usable connection sends nothing: whatever it
    is asked, the log stays as it was, and every operation returns an
    error. *)
Theorem unavailable_client_sends_nothing (ParseIP : string → option IP)
    (c : IGDClient) (mapping : option PortMapping) (port : Z)
    (protocol : string) (fuel : nat) (w : World) :
  IsAvailable c = false →
  (snd (AddPortMapping c mapping w) = w
   ∧ fst (AddPortMapping c mapping w) ≠ None)
  ∧ (snd (DeletePortMapping c port protocol w) = w
     ∧ fst (DeletePortMapping c port protocol w) ≠ None)
  ∧ GetPortMappings ParseIP (S fuel) c w
    = (Some (inl (PlainError "no IGD client available")), w)
  ∧ RefreshExternalIP ParseIP c w
    = ((c, Some (PlainError "no IGD client available")), w).
Proof.
  rewrite IsAvailable_connection. intros Hc%bool_decide_eq_false.
  assert (connection c = None) as Hnone by (by apply eq_None_not_Some).
  split; [|split; [|split]].
  - destruct mapping as [m|]; [|done].
    rewrite AddPortMapping_run, Hnone. by destruct (validProtocol _).
  - rewrite DeletePortMapping_run, Hnone. by destruct (validProtocol _).
  - unfold GetPortMappings. simpl. by rewrite Hnone.
  - unfold RefreshExternalIP, updateExternalIP. by rewrite Hnone.
Qed.

Lemma unavailable_client_sends_nothing_witness :
  GetPortMappings Some 1 noClient []
  = (Some (inl (PlainError "no IGD client available")), []).
Proof.
  destruct (unavailable_client_sends_nothing Some noClient None 8080 "tcp"
              0 [] eq_refl) as (_ & _ & Henum & _).
  exact Henum.
Defined.

Lemma valid_protocol_upper (protocol : string) :
  validProtocol protocol = true →
  strings.ToUpper protocol = "TCP" ∨ strings.ToUpper protocol = "UDP".
Proof.
  unfold validProtocol. rewrite <- !ToUpper_EqualFold.
  intros [H|H]%orb_true_iff; apply String.eqb_eq in H; rewrite H; auto.
Qed.

(** X8.  What goes over the wire.  Whatever mapping, port and protocol the
    client is given, an add or delete action it sends has the wildcard
    remote host, ports between 0 and 65535, the protocol "TCP" or "UDP" in
    capitals, and a lease below 2^32, and an invalid protocol is never
    sent.  Values out of range are reduced, not rejected: with a valid
    protocol and a connection, whatever the ports and the duration are,
    exactly one action is sent, it carries the ports modulo 2^16 and the
    duration modulo 2^32, and the add returns what the device answered to
    it (nil when the device accepted). *)
Theorem actions_sent_are_well_formed (c : IGDClient)
    (mapping : option PortMapping) (port : Z) (protocol : string) (w : World) :
  (∃ evs,
      snd (AddPortMapping c mapping w) = w ++ evs
      ∧ Forall wellFormedAction evs
      ∧ ∀ m d,
          mapping = Some m → validProtocol (Protocol m) = true →
          connection c = Some d →
          let args :=
            {| NewRemoteHost := EmptyString;
               NewExternalPort := ExternalPort m mod 2 ^ 16;
               NewProtocol := strings.ToUpper (Protocol m);
               NewInternalPort := InternalPort m mod 2 ^ 16;
               NewInternalClient := InternalIP m;
               NewEnabled := true;
               NewPortMappingDescription := Description m;
               NewLeaseDuration := Duration m mod 2 ^ 32 |} in
          evs = [EvAddPortMapping args (DeviceAddPortMapping d w args)]
          ∧ fst (AddPortMapping c mapping w)
            = wrapError "failed to add port mapping: "
                <$> DeviceAddPortMapping d w args)
  ∧ (∃ evs,
        snd (DeletePortMapping c port protocol w) = w ++ evs
        ∧ Forall wellFormedAction evs
        ∧ ∀ d,
            validProtocol protocol = true → connection c = Some d →
            evs = [EvDeletePortMapping EmptyString (port mod 2 ^ 16)
                     (strings.ToUpper protocol)
                     (DeviceDeletePortMapping d w EmptyString
                        (port mod 2 ^ 16) (strings.ToUpper protocol))]).
Proof.
  assert (∀ x, 0 ≤ uint16 x < 2 ^ 16) as H16.
  { intros x. unfold uint16. apply Z.mod_pos_bound. lia. }
  assert (∀ x, 0 ≤ uint32 x < 2 ^ 32) as H32.
  { intros x. unfold uint32. apply Z.mod_pos_bound. lia. }
  split.
  - destruct mapping as [m|].
    2:{ exists []. rewrite app_nil_r. split; [done|]. split; [constructor|]. intros; discriminate. }
    rewrite AddPortMapping_run.
    destruct (validProtocol (Protocol m)) eqn:Hm.
    2:{ exists []. rewrite app_nil_r. split; [done|]. split; [constructor|].
        intros m' d [= <-]. congruence. }
    destruct (connection c) as [d|].
    2:{ exists []. rewrite app_nil_r. split; [done|]. split; [constructor|].
        intros; discriminate. }
    eexists [_]. split; [reflexivity|]. split.
    + apply Forall_singleton.
      refine (conj eq_refl (conj (H16 _) (conj (H16 _)
                (conj _ (conj eq_refl (H32 _)))))).
      by apply valid_protocol_upper.
    + intros m' d' [= <-] _ [= <-]. split; reflexivity.
  - rewrite DeletePortMapping_run.
    destruct (validProtocol protocol) eqn:Hp.
    2:{ exists []. rewrite app_nil_r. split; [done|]. split; [constructor|].
        intros; discriminate. }
    destruct (connection c) as [d|].
    2:{ exists []. rewrite app_nil_r. split; [done|]. split; [constructor|].
        intros; discriminate. }
    eexists [_]. split; [reflexivity|]. split.
    + apply Forall_singleton.
      refine (conj eq_refl (conj (H16 _) _)).
      by apply valid_protocol_upper.
    + intros d' _ [= <-]. reflexivity.
Qed.

(** A mapping with the external port 65616 and a lease of 2^32 + 60
    seconds is sent as port 80 with a lease of 60 seconds, and accepted. *)
Lemma actions_sent_are_well_formed_witness :
  AddPortMapping (clientOf (obligingDevice "http://192.168.1.1/"))
    (Some {| ExternalPort := 65616; InternalPort := 80;
             InternalIP := "192.168.1.100"; Protocol := "tcp";
             Description := "Test"; Duration := 2 ^ 32 + 60 |}) []
  = (None,
     [EvAddPortMapping
        {| NewRemoteHost := EmptyString; NewExternalPort := 80;
           NewProtocol := "TCP"; NewInternalPort := 80;
           NewInternalClient := "192.168.1.100"; NewEnabled := true;
           NewPortMappingDescription := "Test"; NewLeaseDuration := 60 |}
        None]).
Proof.
  destruct (actions_sent_are_well_formed
              (clientOf (obligingDevice "http://192.168.1.1/"))
              (Some {| ExternalPort := 65616; InternalPort := 80;
                       InternalIP := "192.168.1.100"; Protocol := "tcp";
                       Description := "Test"; Duration := 2 ^ 32 + 60 |})
              0 "tcp" [])
    as [(evs & Hlog & _ & Hsent) _].
  destruct (Hsent _ (obligingDevice "http://192.168.1.1/")
                  eq_refl eq_refl eq_refl) as [Hevs Hresult].
  rewrite (surjective_pairing (AddPortMapping _ _ _)), Hlog, Hresult, Hevs.
  reflexivity.
Defined.

(** ** Annotations *)

Lemma Atoi_range (s : string) (v : Z) :
  strconv.Atoi s = Some v → - 2 ^ 63 ≤ v ≤ 2 ^ 63 - 1.
Proof.
  assert (∀ sign t, strconv.unsigned sign t = Some v →
                    - 2 ^ 63 ≤ v ≤ 2 ^ 63 - 1) as Hunsigned.
  { intros sign t. unfold strconv.unsigned.
    destruct t as [|a t]; [discriminate|].
    destruct (strconv.digits (String a t) 0) as [n|]; [|discriminate].
    destruct (_ && _) eqn:Hrange; [|discriminate].
    intros [= <-]. apply andb_true_iff in Hrange as [?%Z.leb_le ?%Z.leb_le].
    lia. }
  unfold strconv.Atoi. destruct s as [|a s]; [discriminate|].
  destruct (Ascii.eqb a "+"); [apply Hunsigned|].
  destruct (Ascii.eqb a "-"); apply Hunsigned.
Qed.

Lemma digit_pretty_N_char (r : N) :
  (r < 10)%N → strconv.digit (pretty_N_char r) = Some (Z.of_N r).
Proof.
  intros Hr.
  assert (r = 0 ∨ r = 1 ∨ r = 2 ∨ r = 3 ∨ r = 4 ∨ r = 5 ∨ r = 6 ∨ r = 7
          ∨ r = 8 ∨ r = 9)%N as Hcases by lia.
  repeat (destruct Hcases as [->|Hcases]; [reflexivity|]).
  by subst.
Qed.

Lemma digits_pretty_N_go (x : N) :
  ∀ s, strconv.digits (pretty_N_go x s) 0 = strconv.digits s (Z.of_N x).
Proof.
  induction (N.lt_wf_0 x) as [x _ IH]; intros s.
  destruct (decide (x = 0)%N) as [->|Hx].
  { by rewrite pretty_N_go_0. }
  rewrite pretty_N_go_step by lia.
  rewrite IH by (apply N.div_lt; lia).
  simpl. rewrite digit_pretty_N_char by (apply N.mod_lt; lia).
  f_equal. rewrite N2Z.inj_div, N2Z.inj_mod.
  change (Z.of_N 10) with 10. pose proof (Z.div_mod (Z.of_N x) 10). lia.
Qed.

Lemma digits_pretty (n : Z) :
  0 ≤ n → pretty n ≠ EmptyString ∧ strconv.digits (pretty n) 0 = Some n.
Proof.
  intros Hn. destruct n as [|p|p]; [done| |lia].
  unfold pretty, pretty_Z, pretty, pretty_positive, pretty, pretty_N.
  rewrite decide_False by done.
  pose proof (digits_pretty_N_go (N.pos p) EmptyString) as Hdigits.
  simpl in Hdigits. split; [|exact Hdigits].
  intros Hempty. rewrite Hempty in Hdigits. discriminate.
Qed.

Lemma duration_bounds (svc : Service) :
  0 ≤ getPortMappingDuration svc ≤ 2 ^ 63 - 1.
Proof.
  unfold getPortMappingDuration, DefaultUPnPDuration.
  destruct (Annotations svc !! UPnPDurationAnnotation) as [text|]; [|lia].
  destruct (strconv.Atoi text) as [d|] eqn:Hatoi; [|lia].
  apply Atoi_range in Hatoi.
  destruct (0 <=? d) eqn:Hsign; [|lia]. apply Z.leb_le in Hsign. lia.
Qed.

(** X9.  The duration annotation.  The lease SetBalancer asks for is never
    negative and fits 63 bits; and a duration annotation that is the
    decimal numeral of a number in that range yields this number. *)
Theorem duration_annotation_is_read_as_decimal (svc : Service) (n : Z) :
  0 ≤ n ≤ 2 ^ 63 - 1 →
  0 ≤ getPortMappingDuration svc ≤ 2 ^ 63 - 1
  ∧ (Annotations svc !! UPnPDurationAnnotation = Some (pretty n) →
     getPortMappingDuration svc = n).
Proof.
  intros Hn. split.
  - apply duration_bounds.
  - intros Hannotation. unfold getPortMappingDuration. rewrite Hannotation.
    destruct (digits_pretty n) as [Hnonempty Hdigits]; [lia|].
    assert (strconv.Atoi (pretty n) = Some n) as ->.
    { unfold strconv.Atoi.
      destruct (pretty n) as [|a rest] eqn:Hpretty; [done|].
      assert (strconv.digit a ≠ None) as Hdigit.
      { simpl in Hdigits. by destruct (strconv.digit a). }
      destruct (Ascii.eqb_spec a "+") as [->|_]; [done|].
      destruct (Ascii.eqb_spec a "-") as [->|_]; [done|].
      unfold strconv.unsigned. rewrite Hdigits.
      rewrite Z.mul_1_l.
      assert (((- 2 ^ 63 <=? n) && (n <=? 2 ^ 63 - 1)) = true) as ->; [|done].
      apply andb_true_iff. split; apply Z.leb_le; lia. }
    assert ((0 <=? n) = true) as -> by (apply Z.leb_le; lia). done.
Qed.

Lemma duration_annotation_is_read_as_decimal_witness :
  getPortMappingDuration
    {| Namespace := "default"; Name := "web";
       Annotations := {[ UPnPDurationAnnotation := pretty 86400 ]};
       Ports := [] |}
  = 86400.
Proof.
  apply (duration_annotation_is_read_as_decimal _ 86400);
    [vm_compute; split; discriminate | reflexivity].
Defined.

(** ** More on the mapping table *)

Lemma desired_builtFor (svc : Service) (lbIPs : list IP) (m : PortMapping) :
  m ∈ desiredMappings svc lbIPs → builtFor svc lbIPs m.
Proof.
  unfold desiredMappings. rewrite list_elem_of_bind.
  intros (lbIP & Hm & HlbIP). apply list_elem_of_omap in Hm as (port & Hport & Hm).
  unfold desiredMapping in Hm.
  destruct (Port port =? 0) eqn:Hzero; [discriminate|]. simpl in Hm.
  apply Z.eqb_neq in Hzero.
  assert (0 ≤ getPortMappingDuration svc) as Hduration.
  { apply (duration_bounds svc). }
  destruct (String.eqb_spec (strings.ToLower (PortProtocol port)) "tcp") as [Ht|_].
  { simplify_eq/=. unfold builtFor. simpl. rewrite Ht. naive_solver. }
  destruct (String.eqb_spec (strings.ToLower (PortProtocol port)) "udp") as [Hu|_].
  { simplify_eq/=. unfold builtFor. simpl. rewrite Hu. naive_solver. }
  discriminate.
Qed.

(** X10.  What gets on record.  Every mapping SetBalancer records for a
    marked service was built from one of the service's ports and one of the
    given addresses: external and internal port are that port and not 0,
    the protocol is "tcp" or "udp" in lower case, the lease is not
    negative.  A later deletion of a recorded mapping therefore passes the
    client's validation. *)
Theorem recorded_mappings_are_built_from_the_service (c : upnpController)
    (name : string) (lbIPs : list IP) (svc : Service) (w : World)
    (recorded : list PortMapping) :
  markedForUPnP svc = true →
  mappings (fst (fst (SetBalancer c name lbIPs svc w))) !! name = Some recorded →
  Forall (builtFor svc lbIPs) recorded
  ∧ Forall (λ m, validProtocol (Protocol m) = true) recorded.
Proof.
  intros Hsvc.
  destruct (SetBalancer_stages c name lbIPs svc w Hsvc)
    as (deletions & created & evs & Hrun & _ & _ & _ & Hsub & _).
  rewrite Hrun. simpl. rewrite lookup_insert_eq. intros [= <-].
  split; apply Forall_forall; intros m Hm;
    apply (elem_of_sublist _ _ _ Hm) in Hsub.
  - by apply desired_builtFor.
  - by apply (desired_protocol svc lbIPs).
Qed.

Lemma recorded_mappings_are_built_from_the_service_witness :
  Forall (builtFor firstService ["192.168.1.240"])
         [desiredAt firstService 0; desiredAt firstService 1]
  ∧ Forall (λ m, validProtocol (Protocol m) = true)
           [desiredAt firstService 0; desiredAt firstService 1].
Proof.
  apply (recorded_mappings_are_built_from_the_service
           (controllerOf (obligingDevice "http://192.168.1.1/"))
           "default/web" ["192.168.1.240"] firstService []);
    vm_compute; reflexivity.
Defined.

(** X11.  Other services are left alone.  SetBalancer and DeleteBalancer
    for one key change the record of that key only: the record of every
    other key, the client and the node name of the controller are what they
    were before. *)
Theorem other_services_are_untouched (c : upnpController)
    (name other reason : string) (lbIPs : list IP) (svc : Service)
    (w : World) :
  other ≠ name →
  let applied := fst (fst (SetBalancer c name lbIPs svc w)) in
  let removed := fst (fst (DeleteBalancer c name reason w)) in
  (mappings applied !! other = mappings c !! other
   ∧ client applied = client c ∧ myNode applied = myNode c)
  ∧ (mappings removed !! other = mappings c !! other
     ∧ client removed = client c ∧ myNode removed = myNode c).
Proof.
  intros Hother applied removed. split.
  - subst applied. destruct (markedForUPnP svc) eqn:Hsvc.
    + destruct (SetBalancer_stages c name lbIPs svc w Hsvc)
        as (deletions & created & evs & Hrun & _).
      rewrite Hrun. simpl. by rewrite lookup_insert_ne.
    + unfold SetBalancer. rewrite markedForUPnP_enabled, Hsvc. done.
  - subst removed. rewrite DeleteBalancer_run.
    destruct (SplitMetaNamespaceKey name) as [[??]|]; simpl;
      by rewrite lookup_delete_ne.
Qed.

Lemma other_services_are_untouched_witness :
  mappings (fst (fst (SetBalancer
      (recordingController (obligingDevice "http://192.168.1.1/") "default/db")
      "default/web" ["192.168.1.240"] firstService []))) !! "default/db"
  = Some [sampleMapping "tcp"].
Proof.
  destruct (other_services_are_untouched
              (recordingController (obligingDevice "http://192.168.1.1/")
                                   "default/db")
              "default/web" "default/db" "service deleted"
              ["192.168.1.240"] firstService [])
    as [(Hrecord & _) _]; [discriminate|].
  rewrite Hrecord. reflexivity.
Defined.

Lemma statusChanges_app (evs1 evs2 : list Event) :
  statusChanges (evs1 ++ evs2) = statusChanges evs1 ++ statusChanges evs2.
Proof. apply omap_app. Qed.

Lemma statusChanges_deletions (evs : list Event) :
  Forall (λ ev, isDeleteEvent ev = true) evs → statusChanges evs = [].
Proof.
  induction 1 as [|ev evs Hev _ IH]; [reflexivity|].
  destruct ev; try discriminate. exact IH.
Qed.

(** X12.  One notification per apply that created something.  For a marked
    service SetBalancer never returns an error, also when every creation
    failed; it calls the status-change callback exactly once, with the
    namespace and name of the service, when it put at least one mapping on
    record, and not at all when the record it leaves is empty. *)
Theorem apply_notifies_once_when_it_created (c : upnpController)
    (name : string) (lbIPs : list IP) (svc : Service) (w : World) :
  markedForUPnP svc = true →
  ∃ c' recorded evs,
    SetBalancer c name lbIPs svc w = ((c', None), w ++ evs)
    ∧ mappings c' !! name = Some recorded
    ∧ statusChanges evs
      = match recorded with
        | [] => []
        | _ :: _ => [(Namespace svc, Name svc)]
        end.
Proof.
  intros Hsvc.
  destruct (delete_loop_run c (default [] (mappings c !! name)) w)
    as (deletions & Hdelete & Hdel & _).
  destruct (create_loop_run c (desiredMappings svc lbIPs)) with
    (acc := @nil PortMapping) (w := w ++ deletions)
    as (created & evs & Hcreate & _ & _ & Hstatus & _).
  { apply Forall_forall. intros m. apply desired_protocol. }
  rewrite (SetBalancer_run c name lbIPs svc w Hsvc), Hdelete. simpl.
  rewrite Hcreate. simpl.
  eexists _, created, _. rewrite <- !app_assoc.
  split; [reflexivity|]. split; [apply lookup_insert_eq|].
  rewrite !statusChanges_app, (statusChanges_deletions _ Hdel), Hstatus.
  by destruct created.
Qed.

Lemma apply_notifies_once_when_it_created_witness :
  ∃ c' recorded evs,
    SetBalancer (controllerOf (obligingDevice "http://192.168.1.1/"))
                "default/web" ["192.168.1.240"] firstService []
    = ((c', None), [] ++ evs)
    ∧ mappings c' !! "default/web" = Some recorded
    ∧ statusChanges evs
      = match recorded with
        | [] => []
        | _ :: _ => [(Namespace firstService, Name firstService)]
        end.
Proof.
  apply apply_notifies_once_when_it_created. reflexivity.
Defined.

Lemma delete_loop_attempts (c : upnpController) (d : WANIPConnection1)
    (recorded : list PortMapping) :
  connection (client c) = Some d →
  ∀ w, ∃ answers,
    deleteRecorded c recorded w
    = (tt, w ++ zip_with deleteAction
                 (filter (λ m, validProtocol (Protocol m) = true) recorded)
                 answers)
    ∧ length answers
      = length (filter (λ m, validProtocol (Protocol m) = true) recorded).
Proof.
  intros Hc. unfold deleteRecorded.
  induction recorded as [|m recorded IH]; intros w.
  { exists []. by rewrite app_nil_r. }
  simpl. unfold bind at 1 2. rewrite DeletePortMapping_run, Hc.
  destruct (validProtocol (Protocol m)) eqn:Hm; simpl.
  - set (answer := DeviceDeletePortMapping d w EmptyString _ _).
    destruct (IH (w ++ [deleteAction m answer])) as (answers & Hrun & Hlen).
    exists (answer :: answers).
    rewrite filter_cons_True by done.
    unfold deleteAction in *. rewrite Hrun, <- app_assoc. simpl.
    split; [reflexivity | by f_equal].
  - destruct (IH w) as (answers & Hrun & Hlen).
    exists answers. rewrite filter_cons_False by congruence.
    by rewrite Hrun.
Qed.

(** X13.  Clean removal.  With a connection, DeleteBalancer sends one
    delete action for every mapping on record for the key, in the recorded
    order and for its port and protocol, going on whatever the device
    answers; a recorded mapping with a protocol the client would reject is
    passed over.  The only other effect is the notification, when the key
    splits into namespace and name. *)
Theorem remove_attempts_every_recorded_mapping (c : upnpController)
    (d : WANIPConnection1) (name reason : string) (w : World) :
  connection (client c) = Some d →
  let recorded :=
    filter (λ m, validProtocol (Protocol m) = true)
           (default [] (mappings c !! name)) in
  ∃ answers,
    length answers = length recorded
    ∧ snd (DeleteBalancer c name reason w)
      = w ++ zip_with deleteAction recorded answers
          ++ match SplitMetaNamespaceKey name with
             | Some (svcNamespace, svcName) =>
                 [EvStatusChange svcNamespace svcName]
             | None => []
             end.
Proof.
  intros Hc recorded.
  destruct (delete_loop_attempts c d (default [] (mappings c !! name)) Hc w)
    as (answers & Hrun & Hlen).
  exists answers. split; [exact Hlen|].
  rewrite DeleteBalancer_run, Hrun. simpl.
  destruct (SplitMetaNamespaceKey name) as [[??]|]; simpl.
  - by rewrite <- app_assoc.
  - by rewrite app_nil_r.
Qed.

Lemma remove_attempts_every_recorded_mapping_witness :
  ∃ answers,
    length answers = 1%nat
    ∧ snd (DeleteBalancer
             (recordingController
                (faultyDevice (SOAPFault 501 "Action Failed")) "default/web")
             "default/web" "service deleted" [])
      = [] ++ zip_with deleteAction [sampleMapping "tcp"] answers
           ++ [EvStatusChange "default" "web"].
Proof.
  apply (remove_attempts_every_recorded_mapping
           (recordingController
              (faultyDevice (SOAPFault 501 "Action Failed")) "default/web")
           (faultyDevice (SOAPFault 501 "Action Failed"))
           "default/web" "service deleted" []).
  reflexivity.
Defined.

Lemma create_loop_unavailable (c : upnpController) (desired : list PortMapping) :
  connection (client c) = None →
  Forall (λ m, validProtocol (Protocol m) = true) desired →
  ∀ acc w, fst (foldM (tryCreate c) acc desired w) = acc.
Proof.
  intros Hc. induction 1 as [|m desired Hm _ IH]; intros acc w; [done|].
  simpl. unfold bind. rewrite (tryCreate_run c acc m w Hm), Hc. apply IH.
Qed.

Lemma deletedPairs_app (evs1 evs2 : list Event) :
  deletedPairs (evs1 ++ evs2) = deletedPairs evs1 ++ deletedPairs evs2.
Proof. apply omap_app. Qed.

Lemma deletedPairs_attempts (recorded : list PortMapping) :
  ∀ answers, length answers = length recorded →
    deletedPairs (zip_with deleteAction recorded answers)
    = (λ m, (uint16 (ExternalPort m), strings.ToUpper (Protocol m)))
        <$> recorded.
Proof.
  induction recorded as [|m recorded IH]; intros [|answer answers] Hlen;
    simplify_eq/=; [done|].
  f_equal. by apply IH.
Qed.

Lemma filter_all_valid (l : list PortMapping) :
  Forall (λ m, validProtocol (Protocol m) = true) l →
  filter (λ m, validProtocol (Protocol m) = true) l = l.
Proof.
  induction 1 as [|m l Hm _ IH]; [done|].
  rewrite filter_cons_True by done. by f_equal.
Qed.

(** X14.  Remove undoes apply.  When DeleteBalancer follows SetBalancer for
    the same key, it asks the device to delete exactly what the device had
    confirmed to SetBalancer: the delete actions carry, one for one and in
    order, the external port and protocol of the confirmed add actions.
    Afterwards the table is the one from before the apply, without the
    key. *)
Theorem remove_undoes_apply (c c1 c2 : upnpController) (name reason : string)
    (lbIPs : list IP) (svc : Service) (w : World) (evs1 evs2 : list Event)
    (err : option GoError) :
  markedForUPnP svc = true →
  SetBalancer c name lbIPs svc w = ((c1, None), w ++ evs1) →
  DeleteBalancer c1 name reason (w ++ evs1) = ((c2, err), (w ++ evs1) ++ evs2) →
  deletedPairs evs2
    = (λ a, (NewExternalPort a, NewProtocol a)) <$> confirmedAdds evs1
  ∧ mappings c2 = delete name (mappings c).
Proof.
  intros Hsvc Happly Hremove.
  destruct (SetBalancer_stages c name lbIPs svc w Hsvc)
    as (dels & created & cre & Hrun & _ & Hcreate & Hdel & Hsub & Hconf).
  rewrite Hrun in Happly. injection Happly as Hc1 Hevs1.
  apply app_inv_head in Hevs1.
  assert (confirmedAdds evs1 = addAction <$> created) as ->.
  { rewrite <- Hevs1.
    rewrite !confirmedAdds_app, (confirmedAdds_deletions _ Hdel), Hconf.
    destruct (0 <? length created)%nat; simpl; by rewrite app_nil_r. }
  clear Hevs1 Hrun.
  assert (Forall (λ m, validProtocol (Protocol m) = true) created) as Hvalid.
  { apply Forall_forall. intros m Hm.
    apply (desired_protocol svc lbIPs), (elem_of_sublist _ _ _ Hm Hsub). }
  assert (∃ evs, deleteRecorded c1 created (w ++ evs1) = (tt, (w ++ evs1) ++ evs)
                 ∧ deletedPairs evs
                   = (λ a, (NewExternalPort a, NewProtocol a))
                       <$> (addAction <$> created)) as (evs & Hloop & Hpairs).
  { destruct (connection (client c)) as [d|] eqn:Hconn.
    - destruct (delete_loop_attempts c1 d created) with (w := w ++ evs1)
        as (answers & Hloop & Hlen).
      { by rewrite <- Hc1. }
      rewrite (filter_all_valid _ Hvalid) in Hloop, Hlen.
      eexists. split; [exact Hloop|].
      rewrite (deletedPairs_attempts _ _ Hlen), <- list_fmap_compose.
      done.
    - assert (created = []) as ->.
      { assert (Forall (λ m, validProtocol (Protocol m) = true)
                       (desiredMappings svc lbIPs)) as Hdesired.
        { apply Forall_forall. intros m. apply desired_protocol. }
        pose proof (create_loop_unavailable c (desiredMappings svc lbIPs)
                      Hconn Hdesired [] (w ++ dels)) as Hnone.
        by rewrite Hcreate in Hnone. }
      exists []. by rewrite app_nil_r. }
  rewrite DeleteBalancer_run in Hremove.
  assert (mappings c1 !! name = Some created) as Hrecord.
  { rewrite <- Hc1. apply lookup_insert_eq. }
  rewrite Hrecord in Hremove. simpl in Hremove. rewrite Hloop in Hremove.
  simpl in Hremove.
  assert (mappings (setMappings c1 (delete name (mappings c1)))
          = delete name (mappings c)) as Htable.
  { rewrite <- Hc1. simpl. apply delete_insert_eq. }
  destruct (SplitMetaNamespaceKey name) as [[svcNamespace svcName]|];
    injection Hremove as <- _ Hevs2.
  - rewrite <- app_assoc in Hevs2. apply app_inv_head in Hevs2. subst evs2.
    split; [|exact Htable].
    rewrite deletedPairs_app, Hpairs. simpl. by rewrite app_nil_r.
  - apply app_inv_head in Hevs2. subst evs2. split; [exact Hpairs | exact Htable].
Qed.

Lemma remove_undoes_apply_witness :
  let c := controllerOf (obligingDevice "http://192.168.1.1/") in
  let run1 := SetBalancer c "default/web" ["192.168.1.240"] firstService [] in
  let run2 := DeleteBalancer (fst (fst run1)) "default/web" "service deleted"
                             (snd run1) in
  deletedPairs (drop (length (snd run1)) (snd run2)) = [(80, "TCP"); (443, "TCP")]
  ∧ mappings (fst (fst run2)) = delete "default/web" (mappings c).
Proof.
  intros c run1 run2.
  destruct (remove_undoes_apply c (fst (fst run1)) (fst (fst run2))
              "default/web" "service deleted" ["192.168.1.240"] firstService
              [] (snd run1) (drop (length (snd run1)) (snd run2))
              (snd (fst run2)))
    as (Hpairs & Htable);
    [vm_compute; reflexivity .. |].
  split; [|exact Htable]. rewrite Hpairs. vm_compute. reflexivity.
Defined.

(** X15.  A new controller.  newUPnPController fails exactly when no device
    answers discovery, and then nothing was sent; when it succeeds the
    controller has an empty table, the given node name, and a client that is
    available. *)
Theorem new_controller_starts_empty (ParseIP : string → option IP)
    (net : Network) (node : string) (w : World) :
  match fst (newUPnPController ParseIP net node w) with
  | inr c =>
      is_Some (firstAnswer net) ∧ mappings c = ∅ ∧ myNode c = node
      ∧ IsAvailable (client c) = true
  | inl _ =>
      firstAnswer net = None ∧ snd (newUPnPController ParseIP net node w) = w
  end.
Proof.
  unfold newUPnPController, bind. pose proof (New_run ParseIP net w) as Hnew.
  destruct (firstAnswer net) as [[v d]|].
  - destruct Hnew as (igd & -> & Havailable & _). simpl. eauto.
  - destruct Hnew as (e & ->). simpl. done.
Qed.

Lemma failuresReported_app (evs1 evs2 : list Event) :
  failuresReported (evs1 ++ evs2)
  = (failuresReported evs1 + failuresReported evs2)%nat.
Proof. unfold failuresReported. by rewrite filter_app, length_app. Qed.

Lemma failuresReported_deletions (evs : list Event) :
  Forall (λ ev, isDeleteEvent ev = true) evs → failuresReported evs = 0%nat.
Proof.
  unfold failuresReported. induction 1 as [|ev evs Hev _ IH]; [done|].
  destruct ev; try discriminate. by rewrite filter_cons_False.
Qed.

Lemma create_loop_reports (c : upnpController) (desired : list PortMapping) :
  Forall (λ m, validProtocol (Protocol m) = true) desired →
  ∀ acc w, ∃ created evs,
    foldM (tryCreate c) acc desired w = (acc ++ created, w ++ evs)
    ∧ length desired = (length created + failuresReported evs)%nat.
Proof.
  induction 1 as [|m desired Hm _ IH]; intros acc w.
  { exists [], []. by rewrite !app_nil_r. }
  simpl. unfold bind. rewrite (tryCreate_run c acc m w Hm).
  destruct (connection (client c)) as [d|].
  - destruct (DeviceAddPortMapping d w (addAction m)) as [e|].
    + destruct (IH acc (w ++ [EvAddPortMapping (addAction m) (Some e);
                              EvServiceEvent true "UPnPMappingFailed"]))
        as (created & evs & Hrun & Hcount).
      exists created, (EvAddPortMapping (addAction m) (Some e)
                       :: EvServiceEvent true "UPnPMappingFailed" :: evs).
      rewrite Hrun, <- app_assoc. split; [done|].
      unfold failuresReported in *. rewrite filter_cons_False by done.
      rewrite filter_cons_True by done. simpl. lia.
    + destruct (IH (acc ++ [m]) (w ++ [EvAddPortMapping (addAction m) None]))
        as (created & evs & Hrun & Hcount).
      exists (m :: created), (EvAddPortMapping (addAction m) None :: evs).
      rewrite Hrun, <- !app_assoc. split; [done|].
      unfold failuresReported in *. rewrite filter_cons_False by done.
      simpl. lia.
  - destruct (IH acc (w ++ [EvServiceEvent true "UPnPMappingFailed"]))
      as (created & evs & Hrun & Hcount).
    exists created, (EvServiceEvent true "UPnPMappingFailed" :: evs).
    rewrite Hrun, <- app_assoc. split; [done|].
    unfold failuresReported in *. rewrite filter_cons_True by done.
    simpl. lia.
Qed.

(** X16.  Nothing is dropped in silence.  Of the mappings SetBalancer wants
    for a marked service, each one ends up on record or is reported on the
    service as a failed creation: the number of wanted mappings is the
    number of recorded ones plus the number of failure reports of the
    call. *)
Theorem every_wanted_mapping_is_recorded_or_reported (c : upnpController)
    (name : string) (lbIPs : list IP) (svc : Service) (w : World) :
  markedForUPnP svc = true →
  ∃ c' recorded evs,
    SetBalancer c name lbIPs svc w = ((c', None), w ++ evs)
    ∧ mappings c' !! name = Some recorded
    ∧ length (desiredMappings svc lbIPs)
      = (length recorded + failuresReported evs)%nat.
Proof.
  intros Hsvc.
  destruct (delete_loop_run c (default [] (mappings c !! name)) w)
    as (deletions & Hdelete & Hdel & _).
  destruct (create_loop_reports c (desiredMappings svc lbIPs)) with
    (acc := @nil PortMapping) (w := w ++ deletions)
    as (created & evs & Hcreate & Hcount).
  { apply Forall_forall. intros m. apply desired_protocol. }
  rewrite (SetBalancer_run c name lbIPs svc w Hsvc), Hdelete. simpl.
  rewrite Hcreate. simpl.
  eexists _, created, _. rewrite <- !app_assoc.
  split; [reflexivity|]. split; [apply lookup_insert_eq|].
  rewrite !failuresReported_app, (failuresReported_deletions _ Hdel), Hcount.
  destruct (0 <? length created)%nat; simpl; unfold failuresReported; simpl; lia.
Qed.

Lemma every_wanted_mapping_is_recorded_or_reported_witness :
  ∃ c' recorded evs,
    SetBalancer
      (controllerOf (faultyDevice (SOAPFault 501 "Action Failed")))
      "default/web" ["192.168.1.240"] firstService []
    = ((c', None), [] ++ evs)
    ∧ mappings c' !! "default/web" = Some recorded
    ∧ length (desiredMappings firstService ["192.168.1.240"])
      = (length recorded + failuresReported evs)%nat.
Proof.
  apply every_wanted_mapping_is_recorded_or_reported. reflexivity.
Defined.
